(** * home2school: locations, paths and the path-enumerating walker

    A shallow embedding of [home2school.py].  Python objects of class
    [Location] live in a heap indexed by object identity; the methods that
    touch them are written in a small state-and-exception monad over that
    heap.  [Path] and [Walker] objects are never mutated once they are shared,
    so they are embedded as values.  The arithmetic of distances is an
    interface, [PyNumber], with Python's [int] and [float] as its instance. *)

From Stdlib Require Import ZArith String.
From Stdlib Require PrimFloat SpecFloat FloatOps.
From stdpp Require Import base option list sets gmap.
Import PrimFloat.


(** ** Object identities and the heap of [Location] objects *)

(** The identity of a [Location] object ([id(obj)] in Python).  The class
    defines neither [__eq__] nor [__cmp__], hence [a == b] and
    [a in some_list] compare identities. *)
Definition loc := positive.

Section Model.

(** The type of the coordinates.  The program never fixes it: [main] uses
    integers, any Python number is accepted. *)
Context {num : Type}.

(** class Location: the instance attributes set by [__init__]. *)
Record Location := mkLocation {
  name : string;
  x : num;
  y : num;
  connectedLocations : list loc
}.

End Model.

Global Arguments Location : clear implicits.
Global Arguments mkLocation {num} name x y connectedLocations.

(** All live [Location] objects, by identity. *)
Abbreviation Heap num := (gmap loc (Location num)).

(** ** Outcomes and the monad *)

Inductive exn :=
  | AssertionError
  | IndexError
  | OverflowError
  | ValueError.

(** [OutOfFuel] is not a Python outcome: it marks a run of the model whose
    recursion budget was too small. *)
Inductive result (A : Type) :=
  | Ok (a : A)
  | Raise (e : exn)
  | OutOfFuel.
Global Arguments Ok {A} a.
Global Arguments Raise {A} e.
Global Arguments OutOfFuel {A}.

(** A computation reads and writes the heap and ends in a [result]; the heap
    survives a raised exception. *)
Definition M (num A : Type) : Type := Heap num → Heap num * result A.

Section Monad.
Context {num : Type}.

Definition ret {A} (a : A) : M num A := λ h, (h, Ok a).

Definition bind {A B} (m : M num A) (k : A → M num B) : M num B :=
  λ h, match m h with
       | (h', Ok a) => k a h'
       | (h', Raise e) => (h', Raise e)
       | (h', OutOfFuel) => (h', OutOfFuel)
       end.

Definition raise {A} (e : exn) : M num A := λ h, (h, Raise e).
Definition out_of_fuel {A} : M num A := λ h, (h, OutOfFuel).
Definition lift {A} (r : result A) : M num A := λ h, (h, r).
Definition get_heap : M num (Heap num) := λ h, (h, Ok h).
Definition put_heap (h' : Heap num) : M num unit := λ _, (h', Ok tt).

(** A [for] loop whose body updates an accumulator. *)
Fixpoint foldM {S A} (body : S → A → M num S) (s : S) (l : list A) : M num S :=
  match l with
  | [] => ret s
  | a :: l => bind (body s a) (λ s', foldM body s' l)
  end.

End Monad.

Notation "'do' x <- m ; k" := (bind m (λ x, k))
  (at level 10, x name, m at level 100, k at level 200,
   format "'[v' 'do'  x  <-  m ; '/' k ']'").
Notation "'do_' m ; k" := (bind m (λ _, k))
  (at level 10, m at level 100, k at level 200,
   format "'[v' 'do_'  m ; '/' k ']'").

(** ** Python built-ins used by the program *)

Section Builtins.
Context {num : Type}.

(** [range(n)]: empty when [n <= 0]. *)
Definition range (n : Z) : list Z := Z.of_nat <$> seq 0 (Z.to_nat n).

(** [l[i]]: a negative index counts from the end, an index outside the list
    raises [IndexError]. *)
Definition getitem {A} (l : list A) (i : Z) : M num A :=
  let j := if (i <? 0)%Z then (i + Z.of_nat (length l))%Z else i in
  if (j <? 0)%Z then raise IndexError
  else match l !! Z.to_nat j with
       | Some a => ret a
       | None => raise IndexError
       end.

(** [assert cond]. *)
Definition assert (cond : bool) : M num unit :=
  if cond then ret tt else raise AssertionError.

End Builtins.

(** ** class Location *)

Section LocationMethods.
Context {num : Type}.

(** [Location(name, x, y)]: a new object, with an identity no live object
    has, and its own empty connection list. *)
Definition Location_init (name : string) (x y : num) : M num loc :=
  do h <- get_heap;
  let self := fresh (dom h) in
  do_ put_heap (<[self := mkLocation name x y []]> h);
  ret self.

(** Attribute reads.  An identity outside the heap cannot arise in Python
    (a reference always points to a live object); the model reads the
    class-level [connectedLocations = []] there. *)
Definition getConnectedLocations (self : loc) : M num (list loc) :=
  do h <- get_heap;
  ret (from_option connectedLocations [] (h !! self)).

Definition getName (self : loc) : M num (option string) :=
  do h <- get_heap;
  ret (name <$> h !! self).

(** [self.connectedLocations.append(location)] *)
Definition connectTo (self location : loc) : M num unit :=
  do h <- get_heap;
  put_heap (alter (λ o, mkLocation (name o) (x o) (y o)
                                   (connectedLocations o ++ [location])) self h).

End LocationMethods.

(** ** class Path *)

(** The object holds one attribute, the list [locations].  [addLocation]
    mutates it in place; here it returns the updated object. *)
Record Path := mkPath { locations : list loc }.

Section PathMethods.
Context {num : Type}.

(** [Path()] *)
Definition Path_init : M num Path := ret (mkPath []).

Definition addLocation (self : Path) (location : loc) : M num Path :=
  do_ (if (Z.of_nat (length (locations self)) >? 0)%Z then
         let lastLocationIndex := (Z.of_nat (length (locations self)) - 1)%Z in
         do lastLocation <- getitem (locations self) lastLocationIndex;
         do connected <- getConnectedLocations lastLocation;
         assert (bool_decide (location ∈ connected))
       else ret tt);
  ret (mkPath (locations self ++ [location])).

End PathMethods.

(** ** class Walker *)

(** A frame of the traversal: the location it stands on and the frame that
    spawned it ([None] for the root). *)
Unset Elimination Schemes.
Inductive Walker := mkWalker {
  startLocation : loc;
  previousWalker : option Walker
}.
Set Elimination Schemes.

Definition getPreviousWalker (self : Walker) : option Walker := previousWalker self.
Definition getLocation (self : Walker) : loc := startLocation self.

(** Has the location been visited by this frame or one of its ancestors? *)
Fixpoint isVisited (self : Walker) (location : loc) : bool :=
  if bool_decide (getLocation self = location) then true
  else match getPreviousWalker self with
       | None => false
       | Some previous => isVisited previous location
       end.

(** The loop [while previousWalker != None: locations.append(...)] of
    [_fanout], entered with [previousWalker] bound to a frame. *)
Fixpoint collect_previous (previousWalker : Walker) (locations : list loc) : list loc :=
  let locations := locations ++ [getLocation previousWalker] in
  match getPreviousWalker previousWalker with
  | None => locations
  | Some previousWalker => collect_previous previousWalker locations
  end.

Section WalkerMethods.
Context {num : Type}.

(** [paths] is the list shared by all frames: the call receives its current
    content and returns the content it leaves behind.  [fuel] bounds the depth
    of nested calls; the interpreter's own limit on that depth is not part of
    the model. *)
Fixpoint _fanout (fuel : nat) (self : Walker) (paths : list Path) (endLocation : loc)
  : M num (list Path) :=
  match fuel with
  | O => out_of_fuel
  | S fuel =>
    if bool_decide (startLocation self = endLocation) then
      let locations := [] ++ [startLocation self] in
      let locations :=
        match previousWalker self with
        | None => locations
        | Some previousWalker => collect_previous previousWalker locations
        end in
      do path <- Path_init;
      do path <- foldM addLocation path (reverse locations);
      ret (paths ++ [path])
    else
      do connected <- getConnectedLocations (startLocation self);
      foldM (λ paths connectedLocation,
               if negb (isVisited self connectedLocation) then
                 _fanout fuel (mkWalker connectedLocation (Some self)) paths endLocation
               else ret paths)
            paths connected
  end.

Definition walk (fuel : nat) (self : Walker) (endLocation : loc) : M num (list Path) :=
  let paths := [] in
  do paths <- _fanout fuel self paths endLocation;
  ret paths.

End WalkerMethods.

(** ** Distances *)

(** The arithmetic the program performs on coordinates, left to the Python
    number type in use.  Each operation can raise: [pow] and [math.sqrt] on
    overflow or outside their domain, [+] and [-] when an integer too large
    for a float meets a float. *)
Class PyNumber (num : Type) := {
  num_0 : num;                          (* the literal [0] *)
  num_add : num → num → result num;     (* [a + b] *)
  num_sub : num → num → result num;     (* [a - b] *)
  num_pow2 : num → result num;          (* [pow(a, 2)] *)
  math_sqrt : num → result num          (* [math.sqrt(a)] *)
}.

Section Distance.
Context `{PyNumber num}.

(** [self.x] and [self.y]; the class-level attributes are [x = 0], [y = 0]. *)
Definition get_x (self : loc) : M num num :=
  do h <- get_heap;
  ret (from_option x num_0 (h !! self)).

Definition get_y (self : loc) : M num num :=
  do h <- get_heap;
  ret (from_option y num_0 (h !! self)).

(** [math.sqrt(pow(self.x - location.x, 2) + pow(self.y - location.y, 2))] *)
Definition distanceTo (self location : loc) : M num num :=
  do sx <- get_x self;
  do lx <- get_x location;
  do dx <- lift (num_sub sx lx);
  do dx2 <- lift (num_pow2 dx);
  do sy <- get_y self;
  do ly <- get_y location;
  do dy <- lift (num_sub sy ly);
  do dy2 <- lift (num_pow2 dy);
  do sum <- lift (num_add dx2 dy2);
  lift (math_sqrt sum).

Definition getDistance (self : Path) : M num num :=
  let d := num_0 in
  let pathSegments := (Z.of_nat (length (locations self)) - 1)%Z in
  foldM (λ d i,
           do a <- getitem (locations self) i;
           do b <- getitem (locations self) (i + 1)%Z;
           do dist <- distanceTo a b;
           lift (num_add d dist))
        d (range pathSegments).

(** The description of [getDistance]: the consecutive pairs of a sequence,
    and the sum of [distanceTo] over them, accumulated from 0 in route
    order. *)
Fixpoint consecutive_pairs (l : list loc) : list (loc * loc) :=
  match l with
  | a :: (b :: _) as rest => (a, b) :: consecutive_pairs rest
  | _ => []
  end.

Definition sum_of_distances (l : list loc) : M num num :=
  foldM (λ d ab, do dist <- distanceTo ab.1 ab.2; lift (num_add d dist))
        num_0 (consecutive_pairs l).

End Distance.

(** ** Python's [int] and [float] *)

(** An [int] is unbounded (Python 2 promotes it to [long] silently); a
    [float] is an IEEE 754 binary64 number. *)
Inductive pynum :=
  | PyInt (z : Z)
  | PyFloat (f : PrimFloat.float).

(** The conversion of an [int] to a [float]: to the nearest float, ties to
    even; [OverflowError] when the integer is too large for a float. *)
Definition float_of_int (z : Z) : result PrimFloat.float :=
  let f :=
    FloatOps.SF2Prim
      (SpecFloat.binary_normalize FloatOps.prec FloatOps.emax z 0 false) in
  if PrimFloat.is_infinity f then Raise OverflowError else Ok f.

Definition to_float (a : pynum) : result PrimFloat.float :=
  match a with
  | PyInt z => float_of_int z
  | PyFloat f => Ok f
  end.

(** [a + b] and [a - b]: exact on two integers; otherwise the integer
    operand, if any, is converted and the operation is the one of floats. *)
Definition binary_op (on_int : Z → Z → Z)
    (on_float : PrimFloat.float → PrimFloat.float → PrimFloat.float)
    (a b : pynum) : result pynum :=
  match a, b with
  | PyInt za, PyInt zb => Ok (PyInt (on_int za zb))
  | _, _ =>
      match to_float a with
      | Ok fa =>
          match to_float b with
          | Ok fb => Ok (PyFloat (on_float fa fb))
          | Raise ex => Raise ex
          | OutOfFuel => OutOfFuel
          end
      | Raise ex => Raise ex
      | OutOfFuel => OutOfFuel
      end
  end.

(** [pow(a, 2)]: exact on an integer; on a float the square, taken correctly
    rounded, and [OverflowError] when the square of a finite float is not
    finite. *)
Definition pow2 (a : pynum) : result pynum :=
  match a with
  | PyInt z => Ok (PyInt (z ^ 2))
  | PyFloat f =>
      let r := PrimFloat.mul f f in
      if PrimFloat.is_infinity r && negb (PrimFloat.is_infinity f)
      then Raise OverflowError
      else Ok (PyFloat r)
  end.

(** [math.sqrt(a)]: the argument is converted to a float; [ValueError] when
    the root of a number is not a number. *)
Definition py_sqrt (a : pynum) : result pynum :=
  match to_float a with
  | Ok f =>
      let r := PrimFloat.sqrt f in
      if PrimFloat.is_nan r && negb (PrimFloat.is_nan f)
      then Raise ValueError
      else Ok (PyFloat r)
  | Raise ex => Raise ex
  | OutOfFuel => OutOfFuel
  end.

Global Instance pynum_number : PyNumber pynum := {
  num_0 := PyInt 0;
  num_add := binary_op Z.add PrimFloat.add;
  num_sub := binary_op Z.sub PrimFloat.sub;
  num_pow2 := pow2;
  math_sqrt := py_sqrt
}.

(** ** The graph built by [main] *)

Definition main_locations : M pynum (loc * loc * loc * loc * loc) :=
  do home <- Location_init "Home"%string (PyInt 10) (PyInt 10);
  do shop <- Location_init "Shop"%string (PyInt 10) (PyInt 20);
  do park <- Location_init "Park"%string (PyInt 20) (PyInt 20);
  do library <- Location_init "Library"%string (PyInt 25) (PyInt 10);
  do school <- Location_init "School"%string (PyInt 30) (PyInt 20);
  do_ connectTo home shop;
  do_ connectTo home park;
  do_ connectTo home library;
  do_ connectTo shop park;
  do_ connectTo park school;
  do_ connectTo park home;
  do_ connectTo park library;
  do_ connectTo library park;
  do_ connectTo library school;
  ret (home, shop, park, library, school).

Definition main_paths (fuel : nat) : M pynum (list Path) :=
  do locs <- main_locations;
  let '(home, shop, park, library, school) := locs in
  walk fuel (mkWalker home None) school.

(** The heap [main] has built when it starts the walk, and the identities it
    holds in [home], [shop], [park], [library] and [school]. *)
Definition main_heap : Heap pynum := Eval vm_compute in fst (main_locations ∅).

Definition Home : loc := 1%positive.
Definition Shop : loc := 2%positive.
Definition Park : loc := 3%positive.
Definition Library : loc := 4%positive.
Definition School : loc := 5%positive.

(** A second scenario: two objects built from the same arguments. *)
Definition twin_locations : M pynum (loc * loc) :=
  do a <- Location_init "Twin"%string (PyInt 0) (PyInt 0);
  do b <- Location_init "Twin"%string (PyInt 0) (PyInt 0);
  ret (a, b).

Definition twin_heap : Heap pynum := Eval vm_compute in fst (twin_locations ∅).

(** Two locations connected in both directions. *)
Definition pair_locations : M pynum (loc * loc) :=
  do a <- Location_init "A"%string (PyInt 0) (PyInt 0);
  do b <- Location_init "B"%string (PyInt 3) (PyInt 4);
  do_ connectTo a b;
  do_ connectTo b a;
  ret (a, b).

Definition pair_heap : Heap pynum := Eval vm_compute in fst (pair_locations ∅).

(** Two locations, the first connected to the second twice. *)
Definition double_locations : M pynum (loc * loc) :=
  do a <- Location_init "A"%string (PyInt 0) (PyInt 0);
  do b <- Location_init "B"%string (PyInt 3) (PyInt 4);
  do_ connectTo a b;
  do_ connectTo a b;
  ret (a, b).

Definition double_heap : Heap pynum := Eval vm_compute in fst (double_locations ∅).

(** The graph of [main] stripped of names and coordinates. *)
Definition blank_heap : Heap unit :=
  (λ o, mkLocation ""%string tt tt (connectedLocations o)) <$> main_heap.

(** Heaps whose coordinates are all of type [int], as in [main]. *)
Definition is_int (a : pynum) : bool :=
  match a with
  | PyInt _ => true
  | PyFloat _ => false
  end.

Definition int_coordinates (h : Heap pynum) : Prop :=
  ∀ a o, h !! a = Some o → is_int (x o) ∧ is_int (y o).

(** * Vocabulary of the properties *)

Section Vocabulary.
Context {num : Type}.
Implicit Types (h : Heap num) (w : Walker) (l : list loc).

(** The connections of a location, as [getConnectedLocations] returns them. *)
Definition conns h (a : loc) : list loc :=
  from_option connectedLocations [] (h !! a).

(** [b] is among the connections of the live object [a]. *)
Definition edge h (a b : loc) : Prop :=
  ∃ o, h !! a = Some o ∧ b ∈ connectedLocations o.

(** [e] can be reached from [s] along connections. *)
Definition reachable h (s e : loc) : Prop := rtc (edge h) s e.

(** Every consecutive pair of the sequence is a connection. *)
Fixpoint linked h l : Prop :=
  match l with
  | a :: (b :: _) as rest => edge h a b ∧ linked h rest
  | _ => True
  end.

(** The locations of the graph: the start location, the live objects and
    everything they are connected to. *)
Definition graph_locations h (s : loc) : gset loc :=
  {[s]} ∪ dom h ∪ ⋃ ((list_to_set ∘ connectedLocations) <$> (map_to_list h).*2).

(** The locations of a frame and of its ancestors, the frame's own first. *)
Fixpoint chain w : list loc :=
  startLocation w ::
  match previousWalker w with
  | None => []
  | Some previous => chain previous
  end.

(** The root frame [Walker(s)]. *)
Definition root (s : loc) : Walker := mkWalker s None.

(** [spawn h e w w']: [_fanout], running in frame [w] towards [e], creates
    frame [w'] and recurses into it. *)
Inductive spawn h (e : loc) : Walker → Walker → Prop :=
  | spawn_intro w c :
      startLocation w ≠ e →
      c ∈ conns h (startLocation w) →
      isVisited w c = false →
      spawn h e w (mkWalker c (Some w)).

(** The frames of [Walker(s).walk(e)]. *)
Definition frame h (s e : loc) (w : Walker) : Prop := rtc (spawn h e) (root s) w.

(** A computation that leaves every [Location] as it found it. *)
Definition read_only {A} (m : M num A) : Prop := ∀ h, (m h).1 = h.

(** What [addLocation] answers, read off the heap. *)
Definition addLocation_result h (self : Path) (location : loc) : result Path :=
  match last (locations self) with
  | Some lastLocation =>
      if bool_decide (location ∈ conns h lastLocation)
      then Ok (mkPath (locations self ++ [location]))
      else Raise AssertionError
  | None => Ok (mkPath (locations self ++ [location]))
  end.

(** The body of the loop over the connections, for a given budget. *)
Definition fanout_body (fuel : nat) w (e : loc) (paths : list Path) (c : loc)
  : M num (list Path) :=
  if negb (isVisited w c) then _fanout fuel (mkWalker c (Some w)) paths e
  else ret paths.

(** A path that extends the route of frame [w] to the end location: it
    repeats no location and follows connections only. *)
Definition extends_frame h w (e : loc) (p : Path) : Prop :=
  ∃ suffix, locations p = reverse (chain w) ++ suffix
    ∧ NoDup (locations p) ∧ linked h (locations p) ∧ last (locations p) = Some e.

(** What a call of [_fanout] leaves in [paths], on a frame whose route is
    simple and connected.  [G] is any set of locations closed under
    connections that holds the route. *)
Definition fanout_post h (G : gset loc) (fuel : nat) w (e : loc)
    (acc : list Path) (r : result (list Path)) : Prop :=
  match r with
  | Ok paths => ∃ new, paths = acc ++ new ∧ Forall (extends_frame h w e) new
  | Raise _ => False
  | OutOfFuel => fuel ≤ size (G ∖ list_to_set (chain w))
  end.

(** The budget that suffices for a walk from [s]: the number of distinct
    locations of the graph. *)
Definition enough_fuel h (s : loc) (fuel : nat) : Prop :=
  size (graph_locations h s) ≤ fuel.

(** A simple path from [s] to [e]: a sequence of locations that begins at
    [s], ends at [e], repeats none and follows connections only. *)
Definition simple_path h (s e : loc) l : Prop :=
  head l = Some s ∧ last l = Some e ∧ NoDup l ∧ linked h l.

(** Every connection of a live object is a live object, as in any Python
    heap. *)
Definition closed h : Prop :=
  ∀ a o, h !! a = Some o → ∀ c, c ∈ connectedLocations o → c ∈ dom h.

End Vocabulary.

(** The paths in the order the traversal finds them. *)
Definition main_found : list (list loc) :=
  [ [Home; Shop; Park; School];
    [Home; Shop; Park; Library; School];
    [Home; Park; School];
    [Home; Park; Library; School];
    [Home; Library; Park; School];
    [Home; Library; School] ].

(** The five paths listed for the scenario. *)
Definition main_listed : list (list loc) :=
  [ [Home; Park; School];
    [Home; Library; School];
    [Home; Park; Library; School];
    [Home; Shop; Park; School];
    [Home; Shop; Park; Library; School] ].

(** * Properties *)

(** ** The graph seen by the traversal *)

Section Graph.
Context {num : Type}.
Implicit Types (h : Heap num) (w : Walker) (l : list loc).

Lemma Walker_ind (P : Walker → Prop) :
  (∀ a, P (mkWalker a None)) →
  (∀ a previous, P previous → P (mkWalker a (Some previous))) →
  ∀ w, P w.
Proof.
  intros Hroot Hstep. fix IH 1. intros [a [previous|]].
  - apply Hstep, IH.
  - apply Hroot.
Qed.

Lemma edge_conns h a b : edge h a b ↔ b ∈ conns h a.
Proof.
  unfold edge, conns. split.
  - intros (o & -> & Hb). done.
  - destruct (h !! a) as [o|]; simpl; [eauto | by intros ?%elem_of_nil].
Qed.

Lemma conns_graph_locations h s a b : b ∈ conns h a → b ∈ graph_locations h s.
Proof.
  intros (o & Ho & Hb)%edge_conns. unfold graph_locations.
  apply elem_of_union_r, elem_of_union_list.
  exists (list_to_set (connectedLocations o)). split; [|by apply elem_of_list_to_set].
  apply list_elem_of_fmap. exists o. split; [done|].
  apply list_elem_of_fmap. exists (a, o). split; [done|].
  by apply elem_of_map_to_list.
Qed.

Lemma isVisited_chain w c : isVisited w c = bool_decide (c ∈ chain w).
Proof.
  induction w as [a|a previous IH] using Walker_ind; simpl;
    unfold getLocation; simpl; destruct (decide (a = c)) as [->|Hne].
  - rewrite !bool_decide_eq_true_2; [done|left|done].
  - rewrite !bool_decide_eq_false_2; [done| |done].
    rewrite list_elem_of_singleton. congruence.
  - rewrite !bool_decide_eq_true_2; [done|left|done].
  - rewrite (bool_decide_eq_false_2 (a = c)), IH by done.
    apply bool_decide_ext. rewrite elem_of_cons. intuition congruence.
Qed.

Lemma collect_previous_chain w l : collect_previous w l = l ++ chain w.
Proof.
  revert l. induction w as [a|a previous IH] using Walker_ind; intros l; simpl.
  - done.
  - unfold getLocation; simpl. rewrite IH, <-app_assoc. done.
Qed.

(** *** Sequences of connected locations *)

Lemma linked_cons h a l :
  linked h (a :: l) ↔ (∀ b, head l = Some b → edge h a b) ∧ linked h l.
Proof.
  destruct l as [|b l]; simpl.
  - intuition congruence.
  - split.
    + intros [Hab Hl]. split; [|done]. by intros ? [= <-].
    + intros [Hab Hl]. split; [|done]. by apply Hab.
Qed.

Lemma linked_snoc h l c :
  linked h (l ++ [c]) ↔ linked h l ∧ (∀ b, last l = Some b → edge h b c).
Proof.
  induction l as [|a l IH].
  - simpl. intuition congruence.
  - change ((a :: l) ++ [c]) with (a :: (l ++ [c])).
    rewrite !linked_cons, IH. destruct l as [|b l]; simpl.
    + split.
      * intros [Hac _]. repeat split; try done. intros ? [= <-]. by apply Hac.
      * intros [_ Hac]. repeat split; try done. intros ? [= <-]. by apply Hac.
    + change (last (a :: b :: l)) with (last (b :: l)). tauto.
Qed.

Lemma linked_app_l h l1 l2 : linked h (l1 ++ l2) → linked h l1.
Proof.
  revert l1. induction l2 as [|c l2 IH] using rev_ind; intros l1.
  - by rewrite app_nil_r.
  - rewrite app_assoc, linked_snoc. intros [Hl _]. by apply IH.
Qed.

Lemma linked_lookup h l :
  linked h l ↔ ∀ i a b, l !! i = Some a → l !! S i = Some b → edge h a b.
Proof.
  induction l as [|a l IH].
  - simpl. split; [|done]. intros _ i a b Hi. by rewrite lookup_nil in Hi.
  - rewrite linked_cons, IH. split.
    + intros [Hhd Hl] [|i] a' b; simpl.
      * intros [= <-] Hb. apply Hhd. by destruct l.
      * apply Hl.
    + intros Hall. split.
      * intros b Hb. apply (Hall 0 a b); [done|]. by destruct l.
      * intros i a' b. apply (Hall (S i)).
Qed.

Lemma linked_reachable h l a b :
  linked h l → head l = Some a → last l = Some b → reachable h a b.
Proof.
  revert a. induction l as [|c l IH]; intros a; [done|].
  rewrite linked_cons. intros [Hhd Hl] [= ->]. destruct l as [|c' l].
  - intros [= <-]. apply rtc_refl.
  - change (last (a :: c' :: l)) with (last (c' :: l)). intros Hlast.
    eapply rtc_l; [by apply Hhd|]. by apply IH.
Qed.

Lemma chain_head w : head (chain w) = Some (startLocation w).
Proof. by destruct w. Qed.

Lemma chain_spawned c w : chain (mkWalker c (Some w)) = c :: chain w.
Proof. done. Qed.

End Graph.

(** ** How the methods run *)

Section Runs.
Context {num : Type}.
Implicit Types (h : Heap num) (w : Walker) (l : list loc).

Lemma read_only_ret {A} (a : A) : read_only (num:=num) (ret a).
Proof. done. Qed.

Lemma read_only_bind {A B} (m : M num A) (k : A → M num B) :
  read_only m → (∀ a, read_only (k a)) → read_only (bind m k).
Proof.
  intros Hm Hk h. unfold bind. specialize (Hm h).
  destruct (m h) as [h' [a|ex|]]; simpl in *; subst; [apply Hk|done..].
Qed.

Lemma read_only_foldM {S A} (body : S → A → M num S) s (l : list A) :
  (∀ s a, read_only (body s a)) → read_only (foldM body s l).
Proof.
  intros Hbody. revert s. induction l as [|a l IH]; intros s; simpl.
  - apply read_only_ret.
  - by apply read_only_bind.
Qed.

Lemma getConnectedLocations_run a h :
  getConnectedLocations a h = (h, Ok (conns h a)).
Proof. done. Qed.

Lemma getitem_last {A} (l : list A) (a : A) h :
  last l = Some a →
  getitem l (Z.of_nat (length l) - 1)%Z h = (h, Ok a).
Proof.
  intros Hlast. unfold getitem.
  assert (0 < length l) as Hlen by (destruct l; [done|simpl; lia]).
  destruct (Z.ltb_spec (Z.of_nat (length l) - 1) 0) as [?|_]; [lia|].
  destruct (Z.ltb_spec (Z.of_nat (length l) - 1) 0) as [?|_]; [lia|].
  replace (Z.to_nat (Z.of_nat (length l) - 1)) with (pred (length l)) by lia.
  by rewrite <-last_lookup, Hlast.
Qed.

Lemma addLocation_run self location h :
  addLocation self location h = (h, addLocation_result h self location).
Proof.
  unfold addLocation, addLocation_result.
  destruct (last (locations self)) as [a|] eqn:Hlast.
  - assert (0 < length (locations self)) as Hlen
      by (destruct (locations self); [done|simpl; lia]).
    destruct (Z.gtb_spec (Z.of_nat (length (locations self))) 0) as [_|?]; [|lia].
    unfold bind at 1. unfold bind at 1.
    rewrite (getitem_last _ a) by done.
    unfold bind at 1. rewrite getConnectedLocations_run.
    unfold assert. by case_bool_decide.
  - apply last_None in Hlast. by rewrite Hlast.
Qed.

Lemma addLocation_read_only self location :
  read_only (num:=num) (addLocation self location).
Proof. intros h. by rewrite addLocation_run. Qed.

(** Appending the locations of a connected sequence never trips the
    assertion. *)
Lemma build_path_linked h pre l :
  linked h (pre ++ l) →
  foldM addLocation (mkPath pre) l h = (h, Ok (mkPath (pre ++ l))).
Proof.
  revert pre. induction l as [|c l IH]; intros pre Hlinked; simpl.
  - by rewrite app_nil_r.
  - unfold bind. rewrite addLocation_run. unfold addLocation_result. simpl.
    assert (linked h (pre ++ [c])) as [_ Hc]%linked_snoc.
    { apply (linked_app_l _ _ l). by rewrite <-app_assoc. }
    assert (mkPath (pre ++ c :: l) = mkPath ((pre ++ [c]) ++ l)) as ->
      by (by rewrite <-app_assoc).
    destruct (last pre) as [b|].
    + rewrite bool_decide_eq_true_2 by (by apply edge_conns, Hc).
      apply IH. by rewrite <-app_assoc.
    + apply IH. by rewrite <-app_assoc.
Qed.

(** The list built by the first branch of [_fanout]. *)
Lemma fanout_locations w :
  match previousWalker w with
  | None => [] ++ [startLocation w]
  | Some previous => collect_previous previous ([] ++ [startLocation w])
  end = chain w.
Proof. destruct w as [a [previous|]]; simpl; [apply collect_previous_chain|done]. Qed.

(** *** [_fanout] *)

Lemma fanout_unfold fuel w paths e :
  _fanout (num:=num) (S fuel) w paths e =
  if bool_decide (startLocation w = e) then
    do path <- Path_init;
    do path <- foldM addLocation path (reverse (chain w));
    ret (paths ++ [path])
  else
    do connected <- getConnectedLocations (startLocation w);
    foldM (fanout_body fuel w e) paths connected.
Proof. simpl. by rewrite fanout_locations. Qed.

Lemma fanout_read_only fuel w paths e :
  read_only (num:=num) (_fanout fuel w paths e).
Proof.
  revert w paths. induction fuel as [|fuel IH]; intros w paths; [done|].
  rewrite fanout_unfold. case_bool_decide.
  - apply read_only_bind; [done|]. intros path.
    apply read_only_bind; [|done].
    apply read_only_foldM, addLocation_read_only.
  - apply read_only_bind; [done|]. intros connected.
    apply read_only_foldM. intros acc c. unfold fanout_body.
    destruct (negb (isVisited w c)); [apply IH|done].
Qed.

Lemma walk_read_only fuel w e : read_only (num:=num) (walk fuel w e).
Proof. apply read_only_bind; [apply fanout_read_only|done]. Qed.

Lemma fanout_spec h (G : gset loc) (e : loc) :
  (∀ a b, b ∈ conns h a → b ∈ G) →
  ∀ fuel w acc,
    NoDup (chain w) → linked h (reverse (chain w)) → (∀ a, a ∈ chain w → a ∈ G) →
    ∃ r, _fanout fuel w acc e h = (h, r) ∧ fanout_post h G fuel w e acc r.
Proof.
  intros HG. induction fuel as [|fuel IH]; intros w acc Hnodup Hlinked Hin.
  { exists OutOfFuel. split; [done|]. simpl. lia. }
  rewrite fanout_unfold. case_bool_decide as Hend.
  - exists (Ok (acc ++ [mkPath (reverse (chain w))])). split.
    + unfold bind, Path_init, ret.
      by rewrite (build_path_linked h [] (reverse (chain w))).
    + exists [mkPath (reverse (chain w))]. split; [done|].
      apply Forall_singleton. exists []. simpl. rewrite app_nil_r.
      repeat split; [by rewrite reverse_Permutation|done|].
      by rewrite last_reverse, chain_head, Hend.
  - unfold bind at 1. rewrite getConnectedLocations_run.
    assert (∀ c, c ∈ conns h (startLocation w) → c ∈ conns h (startLocation w))
      as Hsub by done.
    revert Hsub. generalize (conns h (startLocation w)) at 1 3 as cs.
    intros cs. revert acc. induction cs as [|c cs IHcs]; intros acc Hsub.
    { exists (Ok acc). split; [done|]. exists []. by rewrite app_nil_r. }
    simpl. unfold bind. unfold fanout_body at 1.
    destruct (isVisited w c) eqn:Hvisited; simpl.
    { apply IHcs. intros c' Hc'. apply Hsub. by right. }
    rewrite isVisited_chain in Hvisited. apply bool_decide_eq_false in Hvisited.
    assert (c ∈ conns h (startLocation w)) as Hc by (apply Hsub; left).
    destruct (IH (mkWalker c (Some w)) acc) as (r & -> & Hr).
    { rewrite chain_spawned. by apply NoDup_cons. }
    { rewrite chain_spawned, reverse_cons. apply linked_snoc. split; [done|].
      intros b. rewrite last_reverse, chain_head. intros [= <-].
      by apply edge_conns. }
    { intros a. rewrite chain_spawned. intros [->|Ha]%elem_of_cons; [|by apply Hin].
      by apply (HG (startLocation w)). }
    destruct r as [paths|ex|]; simpl in Hr.
    + destruct Hr as (new1 & -> & Hnew1).
      destruct (IHcs (acc ++ new1)) as (r & -> & Hr).
      { intros c' Hc'. apply Hsub. by right. }
      exists r. split; [done|]. destruct r as [paths|ex|]; simpl in *; [|done..].
      destruct Hr as (new2 & -> & Hnew2). exists (new1 ++ new2).
      split; [by rewrite app_assoc|]. apply Forall_app. split; [|done].
      eapply Forall_impl; [exact Hnew1|]. intros p (suffix & Hp & Hrest).
      exists (c :: suffix). split; [|done].
      by rewrite Hp, chain_spawned, reverse_cons, <-app_assoc.
    + done.
    + exists OutOfFuel. split; [done|]. simpl.
      assert (G ∖ ({[c]} ∪ list_to_set (chain w)) ⊂ G ∖ list_to_set (chain w)) as Hlt.
      { apply elem_of_subset. split.
        - intros a. rewrite !elem_of_difference, elem_of_union. tauto.
        - intros Hall. specialize (Hall c).
          rewrite !elem_of_difference, elem_of_union, elem_of_singleton,
            elem_of_list_to_set in Hall.
          destruct Hall as [_ []]; [|by left].
          split; [by apply (HG (startLocation w))|done]. }
      apply subset_size in Hlt. lia.
Qed.

(** *** The recursion budget *)

Lemma foldM_agree {S A} (body1 body2 : S → A → M num S) (l : list A) :
  (∀ s a h h' r, body1 s a h = (h', r) → r ≠ OutOfFuel → body2 s a h = (h', r)) →
  ∀ s h h' r,
    foldM body1 s l h = (h', r) → r ≠ OutOfFuel → foldM body2 s l h = (h', r).
Proof.
  intros Hbody. induction l as [|a l IH]; intros s h h' r; simpl; [done|].
  unfold bind. destruct (body1 s a h) as [h1 r1] eqn:H1.
  destruct r1 as [s1|ex|].
  - rewrite (Hbody _ _ _ _ _ H1) by done. apply IH.
  - intros [= <- <-] _. by rewrite (Hbody _ _ _ _ _ H1).
  - by intros [= <- <-].
Qed.

(** A run that did not exhaust its budget is the run of every larger one. *)
Lemma fanout_fuel_mono fuel fuel' w acc e h h' r :
  fuel ≤ fuel' →
  _fanout fuel w acc e h = (h', r) → r ≠ OutOfFuel →
  _fanout fuel' w acc e h = (h', r).
Proof.
  revert fuel' w acc h h' r.
  induction fuel as [|fuel IH]; intros fuel' w acc h h' r Hle.
  { by intros [= <- <-]. }
  destruct fuel' as [|fuel']; [lia|]. rewrite !fanout_unfold.
  case_bool_decide; [done|]. unfold bind.
  rewrite getConnectedLocations_run. apply foldM_agree.
  intros paths c h1 h2 r1. unfold fanout_body.
  destruct (negb (isVisited w c)); [|done]. apply IH. lia.
Qed.

Lemma walk_fanout fuel w e h : walk fuel w e h = _fanout fuel w [] e h.
Proof.
  unfold walk, bind. by destruct (_fanout fuel w [] e h) as [h' [paths|ex|]].
Qed.

Lemma walk_fuel_mono fuel fuel' w e h h' r :
  fuel ≤ fuel' →
  walk fuel w e h = (h', r) → r ≠ OutOfFuel → walk fuel' w e h = (h', r).
Proof. rewrite !walk_fanout. apply fanout_fuel_mono. Qed.

Lemma walk_spec h s e fuel :
  ∃ r, walk fuel (root s) e h = (h, r)
    ∧ fanout_post h (graph_locations h s) fuel (root s) e [] r.
Proof.
  rewrite walk_fanout. apply fanout_spec.
  - intros a b. apply conns_graph_locations.
  - apply NoDup_singleton.
  - done.
  - intros a ->%list_elem_of_singleton. unfold graph_locations.
    apply elem_of_union_l, elem_of_union_l. by apply elem_of_singleton.
Qed.

Lemma walk_total h s e fuel :
  enough_fuel h s fuel →
  ∃ paths, walk fuel (root s) e h = (h, Ok paths)
    ∧ Forall (extends_frame h (root s) e) paths.
Proof.
  intros Hfuel. destruct (walk_spec h s e fuel) as ([paths|ex|] & Hrun & Hpost).
  - destruct Hpost as (new & -> & Hnew). by exists new.
  - done.
  - simpl in Hpost. exfalso. unfold enough_fuel in Hfuel.
    assert (graph_locations h s ∖ ({[s]} ∪ ∅) ⊂ graph_locations h s) as Hlt.
    { apply elem_of_subset. split.
      - intros a. rewrite elem_of_difference. tauto.
      - intros Hall. specialize (Hall s).
        rewrite elem_of_difference, elem_of_union, elem_of_singleton in Hall.
        destruct Hall as [_ []]; [|by left]. unfold graph_locations.
        apply elem_of_union_l, elem_of_union_l. by apply elem_of_singleton. }
    apply subset_size in Hlt. lia.
Qed.

(** *** Frames *)

Lemma frame_invariant h s e w :
  frame h s e w →
  NoDup (chain w) ∧ linked h (reverse (chain w))
    ∧ (∀ a, a ∈ chain w → a ∈ graph_locations h s).
Proof.
  unfold frame. revert w. apply rtc_ind_r; [|intros w w' Hframe Hspawn IH].
  - repeat split; [apply NoDup_singleton|].
    intros a ->%list_elem_of_singleton. unfold graph_locations.
    apply elem_of_union_l, elem_of_union_l. by apply elem_of_singleton.
  - destruct IH as (Hnodup & Hlinked & Hin).
    destruct Hspawn as [w c Hend Hc Hvisited].
    rewrite isVisited_chain in Hvisited. apply bool_decide_eq_false in Hvisited.
    rewrite chain_spawned. repeat split.
    + by apply NoDup_cons.
    + rewrite reverse_cons. apply linked_snoc. split; [done|].
      intros b. rewrite last_reverse, chain_head. intros [= <-].
      by apply edge_conns.
    + intros a [->|Ha]%elem_of_cons; [|by apply Hin].
      by apply (conns_graph_locations _ _ (startLocation w)).
Qed.

Lemma frame_depth h s e w :
  frame h s e w → length (chain w) ≤ size (graph_locations h s).
Proof.
  intros (Hnodup & _ & Hin)%frame_invariant.
  unfold size, set_size. simpl. apply submseteq_length, NoDup_submseteq; [done|].
  intros a Ha. by apply elem_of_elements, Hin.
Qed.

(** The budget counts nested calls: a frame that lies deeper than the budget
    allows exhausts it. *)
Lemma fanout_depth h e fuel :
  ∀ w w' acc,
    NoDup (chain w) → linked h (reverse (chain w)) →
    rtc (spawn h e) w w' → fuel + length (chain w) ≤ length (chain w') →
    (_fanout fuel w acc e h).2 = OutOfFuel.
Proof.
  induction fuel as [|fuel IH]; intros w w' acc Hnodup Hlinked Hreach Hdeep; [done|].
  apply rtc_inv in Hreach as [->|(w1 & Hspawn & Hreach)]; [lia|].
  destruct Hspawn as [w c Hend Hc Hvisited].
  rewrite fanout_unfold, bool_decide_eq_false_2 by done.
  unfold bind at 1. rewrite getConnectedLocations_run.
  assert (∀ c', c' ∈ conns h (startLocation w) → c' ∈ conns h (startLocation w))
    as Hsub by done.
  revert Hc Hsub. generalize (conns h (startLocation w)) at 1 2 4 as cs.
  intros cs. revert acc. induction cs as [|c0 cs IHcs]; intros acc Hc Hsub.
  { by apply elem_of_nil in Hc. }
  simpl. unfold bind. unfold fanout_body at 1.
  destruct (decide (c0 = c)) as [->|Hne].
  { rewrite Hvisited. simpl.
    specialize (IH (mkWalker c (Some w)) w' acc).
    destruct (_fanout fuel (mkWalker c (Some w)) acc e h) as [h1 r1].
    simpl in IH. rewrite IH; [done| | |done|].
    - rewrite isVisited_chain in Hvisited. apply bool_decide_eq_false in Hvisited.
      by apply NoDup_cons.
    - rewrite reverse_cons. apply linked_snoc. split; [done|].
      intros b. rewrite last_reverse, chain_head. intros [= <-].
      apply edge_conns, Hsub. left.
    - simpl in *. lia. }
  apply elem_of_cons in Hc as [?|Hc]; [congruence|].
  assert (∀ c', c' ∈ cs → c' ∈ conns h (startLocation w)) as Hsub'
    by (intros c' Hc'; apply Hsub; by right).
  destruct (isVisited w c0) eqn:Hvisited0; simpl; [by apply IHcs|].
  rewrite isVisited_chain in Hvisited0. apply bool_decide_eq_false in Hvisited0.
  destruct (fanout_spec h (list_to_set (chain w) ∪ graph_locations h c0) e)
    with (fuel := fuel) (w := mkWalker c0 (Some w)) (acc := acc)
    as (r & -> & Hr).
  { intros a b Hb. apply elem_of_union_r. by apply (conns_graph_locations _ _ a). }
  { by apply NoDup_cons. }
  { rewrite chain_spawned, reverse_cons. apply linked_snoc. split; [done|].
    intros b. rewrite last_reverse, chain_head. intros [= <-].
    apply edge_conns, Hsub. left. }
  { intros a. rewrite chain_spawned. intros [->|Ha]%elem_of_cons.
    - apply elem_of_union_r. unfold graph_locations.
      apply elem_of_union_l, elem_of_union_l. by apply elem_of_singleton.
    - apply elem_of_union_l. by apply elem_of_list_to_set. }
  destruct r as [paths|ex|]; [by apply IHcs|done|done].
Qed.

End Runs.

(** *** [getDistance] *)

Section DistanceRuns.
Context `{PyNumber num}.
Implicit Types (h : Heap num) (l : list loc).

Lemma getitem_lookup {A} (l : list A) (i : nat) (a : A) h :
  l !! i = Some a → getitem (num:=num) l (Z.of_nat i) h = (h, Ok a).
Proof.
  intros Hi. unfold getitem.
  destruct (Z.ltb_spec (Z.of_nat i) 0) as [?|_]; [lia|].
  destruct (Z.ltb_spec (Z.of_nat i) 0) as [?|_]; [lia|].
  by rewrite Nat2Z.id, Hi.
Qed.

Lemma consecutive_pairs_drop l (k : nat) a b :
  l !! k = Some a → l !! S k = Some b →
  consecutive_pairs (drop k l) = (a, b) :: consecutive_pairs (drop (S k) l).
Proof.
  intros Ha Hb.
  rewrite (drop_S l a k Ha), (drop_S l b (S k) Hb). done.
Qed.

Lemma bind_ext {A B} (m1 m2 : M num A) (k1 k2 : A → M num B) h :
  m1 h = m2 h → (∀ a h', k1 a h' = k2 a h') → bind m1 k1 h = bind m2 k2 h.
Proof.
  intros Hm Hk. unfold bind. rewrite Hm.
  destruct (m2 h) as [h' [a|ex|]]; [apply Hk|done..].
Qed.

Lemma getDistance_body l (k : nat) a b d h :
  l !! k = Some a → l !! S k = Some b →
  (do a <- getitem l (Z.of_nat k);
   do b <- getitem l (Z.of_nat k + 1)%Z;
   do dist <- distanceTo a b;
   lift (num_add d dist)) h
  = (do dist <- distanceTo a b; lift (num_add d dist)) h.
Proof.
  intros Ha Hb. unfold bind at 1. rewrite (getitem_lookup l k a h Ha).
  replace (Z.of_nat k + 1)%Z with (Z.of_nat (S k)) by lia.
  unfold bind at 1. by rewrite (getitem_lookup l (S k) b h Hb).
Qed.

Lemma getDistance_loop l :
  ∀ (n k : nat) d h,
    k + n + 1 = length l →
    foldM (λ d i,
             do a <- getitem l i;
             do b <- getitem l (i + 1)%Z;
             do dist <- distanceTo a b;
             lift (num_add d dist))
          d (Z.of_nat <$> seq k n) h
    = foldM (λ d ab, do dist <- distanceTo ab.1 ab.2; lift (num_add d dist))
            d (consecutive_pairs (drop k l)) h.
Proof.
  induction n as [|n IH]; intros k d h Hlen.
  - destruct (drop k l) as [|a [|b rest]] eqn:Hdrop.
    1, 2: reflexivity.
    apply (f_equal length) in Hdrop. rewrite length_drop in Hdrop.
    simpl in Hdrop. lia.
  - destruct (lookup_lt_is_Some_2 l k) as [a Ha]; [lia|].
    destruct (lookup_lt_is_Some_2 l (S k)) as [b Hb]; [lia|].
    rewrite (consecutive_pairs_drop l k a b Ha Hb).
    change (Z.of_nat <$> seq k (S n)) with (Z.of_nat k :: (Z.of_nat <$> seq (S k) n)).
    cbn [foldM]. apply bind_ext.
    + by apply getDistance_body.
    + intros d' h'. apply IH. lia.
Qed.

Lemma getDistance_run (self : Path) h :
  getDistance self h = sum_of_distances (locations self) h.
Proof.
  unfold getDistance, sum_of_distances, range.
  destruct (locations self) as [|a l]; [done|].
  replace (Z.to_nat (Z.of_nat (length (a :: l)) - 1)) with (length l)
    by (simpl length; lia).
  apply (getDistance_loop (a :: l) (length l) 0). simpl. lia.
Qed.

End DistanceRuns.

(** ** The graph of [main] *)

Lemma main_locations_run :
  main_locations ∅ = (main_heap, Ok (Home, Shop, Park, Library, School)).
Proof. vm_compute. reflexivity. Qed.

Lemma main_enough_fuel : enough_fuel main_heap Home 5.
Proof. unfold enough_fuel. vm_compute. done. Qed.

Lemma main_walk_run fuel :
  5 ≤ fuel →
  walk fuel (root Home) School main_heap = (main_heap, Ok (mkPath <$> main_found)).
Proof.
  intros Hfuel. apply (walk_fuel_mono 5); [done| |done].
  vm_compute. reflexivity.
Qed.

Lemma main_paths_run fuel :
  5 ≤ fuel → main_paths fuel ∅ = (main_heap, Ok (mkPath <$> main_found)).
Proof.
  intros Hfuel. unfold main_paths, bind at 1. rewrite main_locations_run.
  by apply main_walk_run.
Qed.

Lemma main_paths_short fuel h paths :
  main_paths fuel ∅ = (h, Ok paths) → 5 ≤ fuel.
Proof.
  intros Hrun. destruct (decide (5 ≤ fuel)) as [|Hlt]; [done|]. exfalso.
  do 5 (destruct fuel as [|fuel]; [vm_compute in Hrun; discriminate|]). lia.
Qed.

(** * The claims *)

Section Claims.
Context {num : Type}.
Implicit Types (h : Heap num) (w : Walker) (s e : loc).

(** C2: with a budget that covers the locations of the graph,
    [Walker(s).walk(e)] returns a collection of paths, and every path in it
    begins at [s], ends at [e], repeats no location, and each of its
    consecutive pairs [(a, b)] has [b] among the connections of [a]. *)
Theorem walk_paths_simple_connected h s e (fuel : nat) :
  enough_fuel h s fuel →
  ∃ paths, walk fuel (root s) e h = (h, Ok paths) ∧
    ∀ p, p ∈ paths →
      head (locations p) = Some s
      ∧ last (locations p) = Some e
      ∧ NoDup (locations p)
      ∧ ∀ i a b, locations p !! i = Some a → locations p !! S i = Some b →
                 edge h a b.
Proof.
  intros Hfuel. destruct (walk_total h s e fuel Hfuel) as (paths & Hrun & Hpaths).
  exists paths. split; [done|]. intros p Hp.
  rewrite Forall_forall in Hpaths.
  destruct (Hpaths p Hp) as (suffix & Heq & Hnodup & Hlinked & Hlast).
  repeat split; [by rewrite Heq|done|done|]. by apply linked_lookup.
Qed.

(** C4: when [e] cannot be reached from [s] along connections, the walk
    returns the empty collection and raises nothing. *)
Theorem walk_unreachable_empty h s e (fuel : nat) :
  enough_fuel h s fuel → ¬ reachable h s e →
  walk fuel (root s) e h = (h, Ok []).
Proof.
  intros Hfuel Hunreachable.
  destruct (walk_total h s e fuel Hfuel) as ([|p paths] & Hrun & Hpaths); [done|].
  exfalso. apply Hunreachable. apply Forall_cons_1 in Hpaths as [Hp _].
  destruct Hp as (suffix & Heq & _ & Hlinked & Hlast).
  apply (linked_reachable h (locations p)); [done|by rewrite Heq|done].
Qed.

(** C5: [addLocation] leaves the heap alone; it raises the assertion failure
    exactly when the sequence is non-empty and the location is not among the
    connections of its last element; otherwise, and always on the empty
    sequence, it answers the path with the location appended at the end. *)
Theorem addLocation_contract h (self : Path) (location : loc) :
  (addLocation self location h).1 = h
  ∧ ((addLocation self location h).2 = Raise AssertionError ↔
       locations self ≠ []
       ∧ ∃ lastLocation, last (locations self) = Some lastLocation
                         ∧ ¬ edge h lastLocation location)
  ∧ ((addLocation self location h).2 ≠ Raise AssertionError →
       (addLocation self location h).2 = Ok (mkPath (locations self ++ [location])))
  ∧ (locations self = [] →
       (addLocation self location h).2 = Ok (mkPath [location])).
Proof.
  rewrite addLocation_run. unfold addLocation_result. simpl.
  split; [done|]. destruct (last (locations self)) as [a|] eqn:Hlast.
  - assert (locations self ≠ []) as Hne by (by intros Hnil; rewrite Hnil in Hlast).
    case_bool_decide as Hconn; (split; [split|split]).
    + done.
    + intros (_ & b & [= <-] & Hb). exfalso. by apply Hb, edge_conns.
    + done.
    + done.
    + intros _. split; [done|]. exists a. split; [done|]. by rewrite edge_conns.
    + done.
    + done.
    + done.
  - apply last_None in Hlast. rewrite Hlast. split; [split|split].
    + done.
    + by intros [? _].
    + done.
    + done.
Qed.

(** C6: the connectivity assertion of [addLocation] never fires during a
    walk from a root frame, whatever the budget; every route the walker
    materialises is connected, so the appends of its locations all succeed;
    and with a budget that covers the graph the walk returns. *)
Theorem walk_assertion_unreachable h s e :
  (∀ fuel ex, (walk fuel (root s) e h).2 ≠ Raise ex)
  ∧ (∀ w, frame h s e w →
       linked h (reverse (chain w))
       ∧ foldM addLocation (mkPath []) (reverse (chain w)) h
         = (h, Ok (mkPath (reverse (chain w)))))
  ∧ (∀ fuel, enough_fuel h s fuel →
       ∃ paths, walk fuel (root s) e h = (h, Ok paths)).
Proof.
  split; [|split].
  - intros fuel ex. destruct (walk_spec h s e fuel) as (r & -> & Hr).
    simpl. intros ->. done.
  - intros w (_ & Hlinked & _)%frame_invariant. split; [done|].
    by apply (build_path_linked h []).
  - intros fuel Hfuel.
    destruct (walk_total h s e fuel Hfuel) as (paths & Hrun & _). eauto.
Qed.

(** C8: with a budget equal to the number of distinct locations of the
    graph the walk returns; every frame of the traversal holds pairwise
    distinct locations, at most as many as the graph has; a frame is only
    spawned on a location that is not on the chain of its parent, whose
    chain it extends by that one location; and the budget does count the
    nesting of calls, since a frame deeper than the budget exhausts it. *)
Theorem walk_terminates h s e (fuel : nat) :
  enough_fuel h s fuel →
  (∃ paths, walk fuel (root s) e h = (h, Ok paths))
  ∧ (∀ w, frame h s e w →
       NoDup (chain w) ∧ length (chain w) ≤ size (graph_locations h s))
  ∧ (∀ w w', frame h s e w → spawn h e w w' →
       (startLocation w' ∉ chain w)
       ∧ chain w' = startLocation w' :: chain w
       ∧ NoDup (chain w'))
  ∧ (∀ fuel' w, frame h s e w → fuel' < length (chain w) →
       (walk fuel' (root s) e h).2 = OutOfFuel).
Proof.
  intros Hfuel. split; [|split; [|split]].
  - destruct (walk_total h s e fuel Hfuel) as (paths & Hrun & _). eauto.
  - intros w Hframe. split.
    + by apply frame_invariant in Hframe as (? & _).
    + by apply (frame_depth h s e).
  - intros w w' Hframe Hspawn.
    assert (NoDup (chain w')) as Hnodup.
    { apply (frame_invariant h s e). by eapply rtc_r. }
    destruct Hspawn as [w c _ _ Hvisited]. simpl.
    rewrite isVisited_chain in Hvisited. apply bool_decide_eq_false in Hvisited.
    done.
  - intros fuel' w Hframe Hdeep. rewrite walk_fanout.
    apply (fanout_depth h e fuel' (root s) w); [apply NoDup_singleton|done|done|].
    simpl. lia.
Qed.

(** C9: the walk is a function of the graph and it writes to no
    [Location]: whatever the budget it hands the heap back as it found it,
    and two walks in a row, each with a budget that covers the graph, return
    the same sequences of locations, the second one on the very heap the
    first one left. *)
Theorem walk_deterministic_read_only h s e (fuel1 fuel2 : nat) :
  enough_fuel h s fuel1 → enough_fuel h s fuel2 →
  (∀ fuel w, (walk fuel w e h).1 = h)
  ∧ ∃ paths1 paths2,
      (do paths1 <- walk fuel1 (root s) e;
       do paths2 <- walk fuel2 (root s) e;
       ret (paths1, paths2)) h = (h, Ok (paths1, paths2))
      ∧ locations <$> paths1 ≡ₚ locations <$> paths2.
Proof.
  intros Hfuel1 Hfuel2. split; [intros fuel w; apply walk_read_only|].
  destruct (walk_total h s e fuel1 Hfuel1) as (paths1 & Hrun1 & _).
  destruct (walk_total h s e fuel2 Hfuel2) as (paths2 & Hrun2 & _).
  exists paths1, paths2. split.
  - unfold bind. by rewrite Hrun1, Hrun2.
  - destruct (Nat.le_ge_cases fuel1 fuel2) as [Hle|Hle].
    + apply (walk_fuel_mono _ _ _ _ _ _ _ Hle) in Hrun1; [|done].
      rewrite Hrun1 in Hrun2. by injection Hrun2 as ->.
    + apply (walk_fuel_mono _ _ _ _ _ _ _ Hle) in Hrun2; [|done].
      rewrite Hrun1 in Hrun2. by injection Hrun2 as ->.
Qed.

(** C10: locations are told apart by identity, not by attributes.  Let [a]
    and [b] be distinct objects with the same name and coordinates.  A frame
    on [a] none of whose ancestors visited [b] reports [b] as not visited; a
    frame on [a] in a walk towards [b] does not stop there, it fans out over
    the connections of [a]; and no path returned by a walk from [a] to [b] is
    the one-location path of [a]: all of them end in [b]. *)
Theorem identity_not_attributes h (a b : loc) (oa ob : Location num) :
  a ≠ b → h !! a = Some oa → h !! b = Some ob →
  name oa = name ob → x oa = x ob → y oa = y ob →
  (∀ previous,
     (∀ p, previous = Some p → isVisited p b = false) →
     isVisited (mkWalker a previous) b = false)
  ∧ (∀ fuel previous paths,
       _fanout (S fuel) (mkWalker a previous) paths b h
       = foldM (fanout_body fuel (mkWalker a previous) b) paths
               (connectedLocations oa) h)
  ∧ (∀ fuel paths,
       walk fuel (root a) b h = (h, Ok paths) →
       (mkPath [a] ∉ paths) ∧ ∀ p, p ∈ paths → last (locations p) = Some b).
Proof.
  intros Hne Ha Hb _ _ _. split; [|split].
  - intros previous Hprev. simpl. unfold getLocation, getPreviousWalker. simpl.
    rewrite bool_decide_eq_false_2 by done.
    destruct previous as [p|]; [by apply Hprev|done].
  - intros fuel previous paths. rewrite fanout_unfold. simpl.
    rewrite bool_decide_eq_false_2 by done.
    unfold bind. rewrite getConnectedLocations_run. unfold conns.
    by rewrite Ha.
  - intros fuel paths Hwalk.
    destruct (walk_spec h a b fuel) as (r & Hrun & Hr).
    rewrite Hrun in Hwalk. injection Hwalk as ->.
    destruct Hr as (new & -> & Hnew). rewrite Forall_forall in Hnew. split.
    + intros Hin.
      destruct (Hnew _ Hin) as (_ & _ & _ & _ & Hlast). simpl in Hlast. congruence.
    + intros p Hin. by destruct (Hnew _ Hin) as (_ & _ & _ & _ & Hlast).
Qed.

Context `{PyNumber num}.

(** C3: whatever the graph, [Walker(s).walk(s)] returns exactly one path, the
    sequence [[s]]; the distance of that path is 0; and the root is the only
    frame of the traversal, so no connection of [s] is explored. *)
Theorem walk_to_self h s (fuel : nat) :
  walk (S fuel) (root s) s h = (h, Ok [mkPath [s]])
  ∧ getDistance (mkPath [s]) h = (h, Ok num_0)
  ∧ (∀ w, frame h s s w → w = root s).
Proof.
  split; [|split].
  - rewrite walk_fanout, fanout_unfold.
    change (startLocation (root s)) with s.
    rewrite bool_decide_eq_true_2 by done. reflexivity.
  - done.
  - unfold frame. apply rtc_ind_r; [done|].
    intros w w' _ Hspawn ->. inversion Hspawn as [w0 c Hend Hc Hvisited].
    by simplify_eq/=.
Qed.

(** C7: [getDistance] is the sum of [distanceTo] over the consecutive pairs
    of the sequence, taken in route order, and it is 0 on a sequence of
    length 0 or 1. *)
Theorem getDistance_sum_of_distances h (self : Path) :
  getDistance self h = sum_of_distances (locations self) h
  ∧ (length (locations self) ≤ 1 → getDistance self h = (h, Ok num_0)).
Proof.
  split; [apply getDistance_run|].
  rewrite getDistance_run. unfold sum_of_distances.
  destruct (locations self) as [|a [|b l]]; simpl; [done|done|lia].
Qed.

End Claims.

(** ** The scenario of [main] *)

(** C1 (as found): on the graph built by [main], with a budget of at least
    five nested calls, the walk from Home to School returns six paths: in
    the order of discovery they are [main_found], that is the five listed
    ones and Home, Library, Park, School. *)
Theorem main_walk_six_paths (fuel : nat) :
  5 ≤ fuel →
  main_locations ∅ = (main_heap, Ok (Home, Shop, Park, Library, School))
  ∧ ∃ paths, main_paths fuel ∅ = (main_heap, Ok paths)
      ∧ locations <$> paths = main_found
      ∧ locations <$> paths ≡ₚ main_listed ++ [[Home; Library; Park; School]].
Proof.
  intros Hfuel. split; [apply main_locations_run|].
  exists (mkPath <$> main_found). split; [by apply main_paths_run|].
  split; [done|]. by apply (bool_decide_unpack _).
Qed.

Lemma main_walk_six_paths_witness :
  main_locations ∅ = (main_heap, Ok (Home, Shop, Park, Library, School))
  ∧ ∃ paths, main_paths 5 ∅ = (main_heap, Ok paths)
      ∧ locations <$> paths = main_found
      ∧ locations <$> paths ≡ₚ main_listed ++ [[Home; Library; Park; School]].
Proof. apply (main_walk_six_paths 5). lia. Defined.

(** C1 (as stated) fails: no budget makes the walk of [main] return the five
    listed paths and no others. *)
Lemma main_walk_not_five_paths :
  ¬ ∃ fuel h paths,
      main_paths fuel ∅ = (h, Ok paths) ∧ locations <$> paths ≡ₚ main_listed.
Proof.
  intros (fuel & h & paths & Hrun & Hperm).
  pose proof (main_paths_short _ _ _ Hrun) as Hfuel.
  rewrite (main_paths_run fuel Hfuel) in Hrun. injection Hrun as <- <-.
  apply Permutation_length in Hperm. vm_compute in Hperm. discriminate.
Qed.

(** ** Instances of the conditional statements *)

Lemma walk_paths_simple_connected_witness :
  ∃ paths, walk 5 (root Home) School main_heap = (main_heap, Ok paths) ∧
    ∀ p, p ∈ paths →
      head (locations p) = Some Home
      ∧ last (locations p) = Some School
      ∧ NoDup (locations p)
      ∧ ∀ i a b, locations p !! i = Some a → locations p !! S i = Some b →
                 edge main_heap a b.
Proof.
  apply (walk_paths_simple_connected main_heap Home School 5).
  unfold enough_fuel. vm_compute. lia.
Defined.

Lemma walk_unreachable_empty_witness :
  walk 5 (root School) Home main_heap = (main_heap, Ok []).
Proof.
  apply (walk_unreachable_empty main_heap School Home 5).
  - unfold enough_fuel. vm_compute. lia.
  - intros Hreach. apply rtc_inv in Hreach as [Heq|(c & (o & Ho & Hc) & _)].
    + discriminate.
    + vm_compute in Ho. injection Ho as <-. by apply elem_of_nil in Hc.
Defined.

Lemma walk_terminates_witness :
  (∃ paths, walk 5 (root Home) School main_heap = (main_heap, Ok paths))
  ∧ (∀ w, frame main_heap Home School w →
       NoDup (chain w) ∧ length (chain w) ≤ size (graph_locations main_heap Home))
  ∧ (∀ w w', frame main_heap Home School w → spawn main_heap School w w' →
       (startLocation w' ∉ chain w)
       ∧ chain w' = startLocation w' :: chain w
       ∧ NoDup (chain w'))
  ∧ (∀ fuel' w, frame main_heap Home School w → fuel' < length (chain w) →
       (walk fuel' (root Home) School main_heap).2 = OutOfFuel).
Proof.
  apply (walk_terminates main_heap Home School 5).
  unfold enough_fuel. vm_compute. lia.
Defined.

Lemma walk_deterministic_read_only_witness :
  (∀ fuel w, (walk fuel w School main_heap).1 = main_heap)
  ∧ ∃ paths1 paths2,
      (do paths1 <- walk 5 (root Home) School;
       do paths2 <- walk 7 (root Home) School;
       ret (paths1, paths2)) main_heap = (main_heap, Ok (paths1, paths2))
      ∧ locations <$> paths1 ≡ₚ locations <$> paths2.
Proof.
  apply (walk_deterministic_read_only main_heap Home School 5 7).
  - unfold enough_fuel. vm_compute. lia.
  - unfold enough_fuel. vm_compute. lia.
Defined.

Lemma identity_not_attributes_witness :
  (∀ previous,
     (∀ p, previous = Some p → isVisited p 2%positive = false) →
     isVisited (mkWalker 1%positive previous) 2%positive = false)
  ∧ (∀ fuel previous paths,
       _fanout (S fuel) (mkWalker 1%positive previous) paths 2%positive twin_heap
       = foldM (fanout_body fuel (mkWalker 1%positive previous) 2%positive) paths
               [] twin_heap)
  ∧ (∀ fuel paths,
       walk fuel (root 1%positive) 2%positive twin_heap = (twin_heap, Ok paths) →
       (mkPath [1%positive] ∉ paths)
       ∧ ∀ p, p ∈ paths → last (locations p) = Some 2%positive).
Proof.
  apply (identity_not_attributes twin_heap 1%positive 2%positive
           (mkLocation "Twin" (PyInt 0) (PyInt 0) []) (mkLocation "Twin" (PyInt 0) (PyInt 0) []));
    [discriminate|reflexivity..].
Defined.

(** ** Distances in the scenario of [main] *)

(** With Python's numbers, Home to Shop is exactly 10.0, and the distances
    of the six paths, in the order of discovery. *)
Example distanceTo_Home_Shop :
  distanceTo Home Shop main_heap = (main_heap, Ok (PyFloat 10%float)).
Proof. vm_compute. reflexivity. Qed.

Example getDistance_main_found :
  (λ l, (getDistance (mkPath l) main_heap).2) <$> main_found
  = [ Ok (PyFloat 30%float);
      Ok (PyFloat 0x1.52e2ac13ef8e9p+5%float);
      Ok (PyFloat 0x1.82463000f856p+4%float);
      Ok (PyFloat 0x1.2405c4146bb99p+5%float);
      Ok (PyFloat 0x1.21715609f7c74p+5%float);
      Ok (PyFloat 0x1.a2e2ac13ef8e9p+4%float) ].
Proof. vm_compute. reflexivity. Qed.

(** * Further properties *)

(** ** What [_fanout] adds to [paths] *)

Section Enumeration.
Context {num : Type}.
Implicit Types (h : Heap num) (w : Walker) (l : list loc) (s e : loc).

(** A call only appends to [paths]. *)
Lemma fanout_extends fuel :
  ∀ w acc e h h' paths,
    _fanout fuel w acc e h = (h', Ok paths) → ∃ new, paths = acc ++ new.
Proof.
  induction fuel as [|fuel IH]; intros w acc e h h' paths; [done|].
  rewrite fanout_unfold. case_bool_decide.
  - unfold bind, Path_init, ret.
    destruct (foldM addLocation _ _ h) as [h1 [path|ex|]]; [|done..].
    intros [= <- <-]. eauto.
  - unfold bind at 1. rewrite getConnectedLocations_run.
    generalize (conns h (startLocation w)) as cs. intros cs.
    revert acc h. induction cs as [|c cs IHcs]; intros acc h; simpl.
    { intros [= <- <-]. exists []. by rewrite app_nil_r. }
    unfold bind. destruct (fanout_body fuel w e acc c h) as [h1 [paths1|ex|]] eqn:Hc;
      [|done..].
    intros Hrest. apply IHcs in Hrest as (new2 & ->).
    unfold fanout_body in Hc. destruct (negb (isVisited w c)).
    + apply IH in Hc as (new1 & ->). exists (new1 ++ new2). by rewrite app_assoc.
    + injection Hc as <- <-. eauto.
Qed.

Lemma fanout_body_extends fuel w e cs :
  ∀ acc h h' paths,
    foldM (fanout_body fuel w e) acc cs h = (h', Ok paths) →
    ∃ new, paths = acc ++ new.
Proof.
  induction cs as [|c cs IHcs]; intros acc h h' paths; simpl.
  { intros [= <- <-]. exists []. by rewrite app_nil_r. }
  unfold bind. destruct (fanout_body fuel w e acc c h) as [h1 [paths1|ex|]] eqn:Hc;
    [|done..].
  intros Hrest. apply IHcs in Hrest as (new2 & ->).
  unfold fanout_body in Hc. destruct (negb (isVisited w c)).
  - apply fanout_extends in Hc as (new1 & ->). exists (new1 ++ new2).
    by rewrite app_assoc.
  - injection Hc as <- <-. eauto.
Qed.

(** Every simple continuation of the route of a frame is found. *)
Lemma fanout_complete h e fuel :
  ∀ w acc paths suffix,
    _fanout fuel w acc e h = (h, Ok paths) →
    NoDup (reverse (chain w) ++ suffix) →
    linked h (reverse (chain w) ++ suffix) →
    last (reverse (chain w) ++ suffix) = Some e →
    mkPath (reverse (chain w) ++ suffix) ∈ paths.
Proof.
  induction fuel as [|fuel IH]; intros w acc paths suffix; [done|].
  rewrite fanout_unfold. intros Hrun Hnodup Hlinked Hlast.
  case_bool_decide as Hend.
  - (* the frame stands on [e]: the route is the whole path *)
    assert (suffix = []) as ->.
    { destruct suffix as [|c suffix _] using rev_ind; [done|]. exfalso.
      rewrite app_assoc, last_snoc in Hlast. injection Hlast as ->.
      apply NoDup_app in Hnodup as (_ & Hdisjoint & _).
      apply (Hdisjoint (startLocation w)).
      - rewrite elem_of_reverse. destruct w; left.
      - rewrite Hend, elem_of_app, list_elem_of_singleton. by right. }
    rewrite app_nil_r in *. revert Hrun. unfold bind, Path_init, ret.
    rewrite (build_path_linked h [] (reverse (chain w))) by done.
    intros [= <-]. apply elem_of_app. right. left.
  - (* otherwise the path goes on through a connection not yet visited *)
    destruct suffix as [|c suffix].
    { rewrite app_nil_r, last_reverse, chain_head in Hlast. congruence. }
    assert (reverse (chain w) ++ c :: suffix
            = reverse (chain (mkWalker c (Some w))) ++ suffix) as Heq.
    { by rewrite chain_spawned, reverse_cons, <-app_assoc. }
    assert (c ∈ conns h (startLocation w)) as Hc.
    { pose proof Hlinked as Hl. rewrite Heq in Hl. apply linked_app_l in Hl.
      rewrite chain_spawned, reverse_cons in Hl.
      apply linked_snoc in Hl as [_ Hedge]. apply edge_conns, Hedge.
      by rewrite last_reverse, chain_head. }
    assert (isVisited w c = false) as Hvisited.
    { rewrite isVisited_chain. apply bool_decide_eq_false. intros Hin.
      apply NoDup_app in Hnodup as (_ & Hdisjoint & _).
      apply (Hdisjoint c); [by rewrite elem_of_reverse|left]. }
    revert Hrun. unfold bind at 1. rewrite getConnectedLocations_run.
    revert Hc. generalize (conns h (startLocation w)) as cs. intros cs.
    revert acc. induction cs as [|c0 cs IHcs]; intros acc Hc.
    { by apply elem_of_nil in Hc. }
    simpl. unfold bind.
    destruct (fanout_body fuel w e acc c0 h) as [h1 [paths1|ex|]] eqn:Hc0; [|done..].
    assert (h1 = h) as ->.
    { unfold fanout_body in Hc0. destruct (negb (isVisited w c0)).
      - pose proof (fanout_read_only fuel (mkWalker c0 (Some w)) acc e h) as Hro.
        by rewrite Hc0 in Hro.
      - by injection Hc0. }
    intros Hrest. destruct (decide (c0 = c)) as [->|Hne].
    + unfold fanout_body in Hc0. rewrite Hvisited in Hc0. simpl in Hc0.
      apply fanout_body_extends in Hrest as (new & ->).
      apply elem_of_app. left. rewrite Heq.
      apply (IH _ _ _ _ Hc0); by rewrite <-Heq.
    + apply (IHcs paths1); [|done].
      apply elem_of_cons in Hc as [?|Hc]; [congruence|done].
Qed.

Lemma walk_complete h s e fuel paths l :
  walk fuel (root s) e h = (h, Ok paths) → simple_path h s e l → mkPath l ∈ paths.
Proof.
  rewrite walk_fanout. intros Hrun (Hhead & Hlast & Hnodup & Hlinked).
  destruct l as [|a suffix]; [done|]. injection Hhead as ->.
  by apply (fanout_complete h e fuel (root s) [] paths suffix).
Qed.

Lemma walk_sound h s e fuel paths l :
  walk fuel (root s) e h = (h, Ok paths) → mkPath l ∈ paths → simple_path h s e l.
Proof.
  intros Hrun Hin. destruct (walk_spec h s e fuel) as (r & Hrun' & Hr).
  rewrite Hrun in Hrun'. injection Hrun' as <-. destruct Hr as (new & -> & Hnew).
  rewrite Forall_forall in Hnew.
  destruct (Hnew _ Hin) as (suffix & Heq & Hnodup & Hlinked & Hlast). simpl in *.
  repeat split; [by rewrite Heq|done..].
Qed.

Lemma spawned_invariant h w c :
  NoDup (chain w) → linked h (reverse (chain w)) →
  c ∈ conns h (startLocation w) → isVisited w c = false →
  NoDup (chain (mkWalker c (Some w)))
  ∧ linked h (reverse (chain (mkWalker c (Some w)))).
Proof.
  intros Hnodup Hlinked Hc Hvisited.
  rewrite isVisited_chain in Hvisited. apply bool_decide_eq_false in Hvisited.
  rewrite chain_spawned. split; [by apply NoDup_cons|].
  rewrite reverse_cons. apply linked_snoc. split; [done|].
  intros b. rewrite last_reverse, chain_head. intros [= <-]. by apply edge_conns.
Qed.

(** Without duplicate connections no path is added twice. *)
Lemma fanout_nodup h e :
  (∀ a, NoDup (conns h a)) →
  ∀ fuel w acc paths,
    NoDup (chain w) → linked h (reverse (chain w)) →
    _fanout fuel w acc e h = (h, Ok paths) →
    ∃ new, paths = acc ++ new ∧ NoDup new ∧ Forall (extends_frame h w e) new.
Proof.
  intros Hconns. induction fuel as [|fuel IH]; intros w acc paths Hnodup Hlinked;
    [done|].
  rewrite fanout_unfold. case_bool_decide as Hend.
  - unfold bind, Path_init, ret.
    rewrite (build_path_linked h [] (reverse (chain w))) by done.
    intros [= <-]. exists [mkPath (reverse (chain w))].
    split; [done|]. split; [apply NoDup_singleton|].
    apply Forall_singleton. exists []. simpl. rewrite app_nil_r.
    repeat split; [by rewrite reverse_Permutation|done|].
    by rewrite last_reverse, chain_head, Hend.
  - unfold bind at 1. rewrite getConnectedLocations_run.
    pose proof (Hconns (startLocation w)) as Hcs.
    assert (∀ c, c ∈ conns h (startLocation w) → c ∈ conns h (startLocation w))
      as Hsub by done.
    revert Hcs Hsub. generalize (conns h (startLocation w)) at 1 2 4 as cs.
    intros cs Hcs Hsub Hrun.
    cut (∃ new, paths = acc ++ new ∧ NoDup new
           ∧ Forall (λ p, extends_frame h w e p
                          ∧ ∃ c suffix, c ∈ cs
                              ∧ locations p = reverse (chain w) ++ c :: suffix) new).
    { intros (new & -> & Hnew & Hall). exists new. repeat split; [done|].
      eapply Forall_impl; [exact Hall|]. by intros p [? _]. }
    revert acc paths Hcs Hsub Hrun.
    induction cs as [|c cs IHcs]; intros acc paths Hcs Hsub; simpl.
    { intros [= <-]. exists []. rewrite app_nil_r. repeat split; constructor. }
    apply NoDup_cons in Hcs as [Hc Hcs]. unfold bind.
    destruct (fanout_body fuel w e acc c h) as [h1 [paths1|ex|]] eqn:Hbody; [|done..].
    assert (∀ c', c' ∈ cs → c' ∈ conns h (startLocation w)) as Hsub'
      by (intros c' Hc'; apply Hsub; by right).
    unfold fanout_body in Hbody.
    destruct (isVisited w c) eqn:Hvisited; simpl in Hbody.
    { injection Hbody as <- <-. intros Hrest.
      destruct (IHcs _ _ Hcs Hsub' Hrest) as (new & -> & Hnew & Hall).
      exists new. repeat split; [done|].
      eapply Forall_impl; [exact Hall|].
      intros p (? & c' & suffix & ? & ?). split; [done|].
      exists c', suffix. split; [by right|done]. }
    assert (h1 = h) as ->.
    { pose proof (fanout_read_only fuel (mkWalker c (Some w)) acc e h) as Hro.
      by rewrite Hbody in Hro. }
    destruct (spawned_invariant h w c) as [Hnodup' Hlinked']; [done|done| |done|].
    { apply Hsub. left. }
    destruct (IH _ _ _ Hnodup' Hlinked' Hbody) as (new1 & -> & Hnew1 & Hall1).
    intros Hrest.
    destruct (IHcs _ _ Hcs Hsub' Hrest) as (new2 & -> & Hnew2 & Hall2).
    exists (new1 ++ new2). split; [by rewrite app_assoc|].
    rewrite Forall_forall in Hall1. rewrite Forall_forall in Hall2. split.
    + apply NoDup_app. repeat split; [done| |done].
      intros p Hp1 Hp2.
      destruct (Hall1 _ Hp1) as (suffix1 & Heq1 & _).
      destruct (Hall2 _ Hp2) as (_ & c' & suffix2 & Hc' & Heq2).
      rewrite Heq1, chain_spawned, reverse_cons, <-app_assoc in Heq2.
      apply app_inv_head in Heq2. injection Heq2 as -> _. done.
    + apply Forall_forall. intros p [Hp|Hp]%elem_of_app.
      * destruct (Hall1 _ Hp) as (suffix & Heq & Hrest').
        rewrite chain_spawned, reverse_cons, <-app_assoc in Heq. split.
        -- by exists (c :: suffix).
        -- exists c, suffix. split; [left|done].
      * destruct (Hall2 _ Hp) as (? & c' & suffix & ? & ?). split; [done|].
        exists c', suffix. split; [by right|done].
Qed.

(** Appending a sequence that is not connected trips the assertion. *)
Lemma build_path_unlinked h pre l :
  linked h pre → ¬ linked h (pre ++ l) →
  foldM addLocation (mkPath pre) l h = (h, Raise AssertionError).
Proof.
  revert pre. induction l as [|c l IH]; intros pre Hpre Hnot; simpl.
  { by rewrite app_nil_r in Hnot. }
  unfold bind. rewrite addLocation_run. unfold addLocation_result. simpl.
  assert (pre ++ c :: l = (pre ++ [c]) ++ l) as Heq by (by rewrite <-app_assoc).
  destruct (last pre) as [b|] eqn:Hlast.
  - case_bool_decide as Hc; [|done]. apply IH; [|by rewrite <-Heq].
    apply linked_snoc. split; [done|]. intros b'. rewrite Hlast.
    intros [= <-]. by apply edge_conns.
  - apply IH; [|by rewrite <-Heq].
    apply linked_snoc. split; [done|]. intros b'. by rewrite Hlast.
Qed.

End Enumeration.

(** ** The walk reads connections only *)

Section ConnectionsOnly.
Context {num1 num2 : Type}.
Context (h1 : Heap num1) (h2 : Heap num2).
Hypothesis same_conns : ∀ a, conns h1 a = conns h2 a.

Lemma build_path_conns_only l :
  ∀ p, ∃ r, foldM addLocation p l h1 = (h1, r) ∧ foldM addLocation p l h2 = (h2, r).
Proof.
  induction l as [|c l IH]; intros p; simpl; [by exists (Ok p)|].
  unfold bind. rewrite !addLocation_run.
  assert (addLocation_result h1 p c = addLocation_result h2 p c) as ->.
  { unfold addLocation_result. destruct (last (locations p)); [|done].
    by rewrite same_conns. }
  destruct (addLocation_result h2 p c) as [p'|ex|]; [apply IH|by eexists..].
Qed.

Lemma fanout_conns_only fuel :
  ∀ w acc e,
    ∃ r, _fanout fuel w acc e h1 = (h1, r) ∧ _fanout fuel w acc e h2 = (h2, r).
Proof.
  induction fuel as [|fuel IH]; intros w acc e; [by exists OutOfFuel|].
  rewrite !fanout_unfold. case_bool_decide.
  - unfold bind, Path_init, ret.
    destruct (build_path_conns_only (reverse (chain w)) (mkPath []))
      as (r & -> & ->).
    destruct r as [path|ex|]; by eexists.
  - unfold bind. rewrite !getConnectedLocations_run, same_conns.
    generalize (conns h2 (startLocation w)) as cs. intros cs. revert acc.
    induction cs as [|c cs IHcs]; intros acc; simpl; [by exists (Ok acc)|].
    unfold bind, fanout_body at 1 3. destruct (negb (isVisited w c)).
    + destruct (IH (mkWalker c (Some w)) acc e) as (r & -> & ->).
      destruct r as [paths|ex|]; [apply IHcs|by eexists..].
    + apply IHcs.
Qed.

End ConnectionsOnly.

(** ** Building the graph *)

Section Building.
Context {num : Type}.
Implicit Types (h : Heap num) (l : list loc) (s e : loc).

Lemma Location_init_run (n : string) (cx cy : num) h :
  Location_init n cx cy h
  = (<[fresh (dom h) := mkLocation n cx cy []]> h, Ok (fresh (dom h))).
Proof. done. Qed.

Lemma fresh_not_live h : h !! fresh (dom h) = None.
Proof. apply not_elem_of_dom, is_fresh. Qed.

Lemma connectTo_run (a b : loc) h :
  connectTo a b h
  = (alter (λ o, mkLocation (name o) (x o) (y o) (connectedLocations o ++ [b])) a h,
     Ok tt).
Proof. done. Qed.

Lemma connectTo_conns (a b c : loc) h :
  conns (connectTo a b h).1 c
  = if decide (c = a) then
      match h !! a with Some _ => conns h a ++ [b] | None => [] end
    else conns h c.
Proof.
  rewrite connectTo_run. unfold conns. simpl. destruct (decide (c = a)) as [->|Hne].
  - rewrite lookup_alter_eq. by destruct (h !! a).
  - by rewrite lookup_alter_ne.
Qed.

Lemma connectTo_edge_mono (a b : loc) h c d :
  edge h c d → edge (connectTo a b h).1 c d.
Proof.
  rewrite !edge_conns, connectTo_conns. intros Hd. case_decide as Hc; [|done].
  subst c. apply edge_conns in Hd as (o & Ho & Hd).
  unfold conns. rewrite Ho. simpl. apply elem_of_app. by left.
Qed.

Lemma linked_mono h h' l :
  (∀ a b, edge h a b → edge h' a b) → linked h l → linked h' l.
Proof.
  intros Hmono. induction l as [|a l IH]; [done|].
  rewrite !linked_cons. intros [Hhd Hl]. split; [|by apply IH].
  intros b Hb. by apply Hmono, Hhd.
Qed.

(** In a closed heap that holds the start location, the locations of the
    graph are the live objects. *)
Lemma closed_graph_locations h s :
  closed h → s ∈ dom h → graph_locations h s = dom h.
Proof.
  intros Hclosed Hs. unfold graph_locations. apply set_eq. intros a.
  rewrite !elem_of_union, elem_of_singleton, elem_of_union_list. split; [|tauto].
  intros [[->|?]|(X & HX & Ha)]; [done..|].
  apply list_elem_of_fmap in HX as (o & -> & Ho).
  apply list_elem_of_fmap in Ho as ([b o'] & -> & Ho).
  apply elem_of_map_to_list in Ho. simpl in Ha.
  apply elem_of_list_to_set in Ha. by apply (Hclosed b o').
Qed.

(** The locations of a connected sequence that begins at [s] are locations
    of the graph. *)
Lemma linked_graph_locations h s l a :
  linked h l → head l = Some s → a ∈ l → a ∈ graph_locations h s.
Proof.
  intros Hlinked Hhead (i & Hi)%list_elem_of_lookup. destruct i as [|i].
  - destruct l as [|a' l]; [done|]. simpl in *. simplify_eq.
    unfold graph_locations.
    apply elem_of_union_l, elem_of_union_l. by apply elem_of_singleton.
  - destruct (lookup_lt_is_Some_2 l i) as [b Hb].
    { apply lookup_lt_Some in Hi. lia. }
    apply (conns_graph_locations h s b), edge_conns.
    by apply (proj1 (linked_lookup h l) Hlinked i).
Qed.

End Building.

(** ** Checks on concrete heaps *)

Section Checks.
Context {num : Type}.
Implicit Types (h : Heap num).

Lemma closed_check h :
  map_Forall (λ _ o, Forall (λ c, c ∈ dom h) (connectedLocations o)) h → closed h.
Proof.
  intros Hall a o Ho c Hc. specialize (Hall a o Ho). simpl in Hall.
  rewrite Forall_forall in Hall. by apply Hall.
Qed.

Lemma symmetric_check h :
  map_Forall (λ a o, Forall (λ b, a ∈ conns h b) (connectedLocations o)) h →
  ∀ a b, edge h a b → edge h b a.
Proof.
  intros Hall a b (o & Ho & Hb). specialize (Hall a o Ho). simpl in Hall.
  rewrite Forall_forall in Hall. by apply edge_conns, Hall.
Qed.

Lemma nodup_check h :
  map_Forall (λ _ o, NoDup (connectedLocations o)) h →
  ∀ a o, h !! a = Some o → NoDup (connectedLocations o).
Proof. intros Hall a o Ho. by apply (Hall a o Ho). Qed.

End Checks.

(** ** Routes in both directions, and the direct route *)

Section Routes.
Context {num : Type}.
Implicit Types (h : Heap num) (w : Walker) (l : list loc) (s e : loc).

Lemma linked_reverse h l :
  (∀ a b, edge h a b → edge h b a) → linked h l → linked h (reverse l).
Proof.
  intros Hsym. induction l as [|a l IH]; [done|].
  rewrite linked_cons, reverse_cons, linked_snoc. intros [Hhd Hl].
  split; [by apply IH|]. intros b. rewrite last_reverse. intros Hb.
  by apply Hsym, Hhd.
Qed.

Lemma simple_path_reverse h s e l :
  (∀ a b, edge h a b → edge h b a) →
  simple_path h s e l → simple_path h e s (reverse l).
Proof.
  intros Hsym (Hhead & Hlast & Hnodup & Hlinked). repeat split.
  - by rewrite head_reverse.
  - by rewrite last_reverse.
  - by rewrite reverse_Permutation.
  - by apply linked_reverse.
Qed.

Lemma filter_none {A} (P : A → Prop) `{!∀ a, Decision (P a)} (l : list A) :
  Forall (λ a, ¬ P a) l → filter P l = [].
Proof. induction 1 as [|a l Ha Hl IH]; [done|]. by rewrite filter_cons_False. Qed.

Lemma spawned_from_root h s c :
  c ∈ conns h s → isVisited (root s) c = false →
  NoDup (chain (mkWalker c (Some (root s))))
  ∧ linked h (reverse (chain (mkWalker c (Some (root s)))))
  ∧ ∀ a, a ∈ chain (mkWalker c (Some (root s))) → a ∈ graph_locations h s.
Proof.
  intros Hc Hvisited.
  destruct (spawned_invariant h (root s) c) as [Hnodup Hlinked];
    [apply NoDup_singleton|done..|].
  split; [done|]. split; [done|]. intros a [->|Ha]%elem_of_cons.
  - by apply (conns_graph_locations h s s).
  - apply list_elem_of_singleton in Ha as ->. unfold graph_locations.
    apply elem_of_union_l, elem_of_union_l. by apply elem_of_singleton.
Qed.

(** The direct route is added once for every entry of [e] among the
    connections of [s]. *)
Lemma direct_route_loop h s e fuel cs :
  s ≠ e → (∀ c, c ∈ cs → c ∈ conns h s) →
  ∀ acc paths,
    foldM (fanout_body fuel (root s) e) acc cs h = (h, Ok paths) →
    length (filter (λ p, locations p = [s; e]) paths)
    = length (filter (λ p, locations p = [s; e]) acc)
      + length (filter (λ c, c = e) cs).
Proof.
  intros Hne. induction cs as [|c cs IHcs]; intros Hsub acc paths; simpl.
  { intros [= <-]. lia. }
  assert (∀ c', c' ∈ cs → c' ∈ conns h s) as Hsub'
    by (intros c' Hc'; apply Hsub; by right).
  assert (c ∈ conns h s) as Hc by (apply Hsub; left).
  unfold bind. unfold fanout_body at 1. rewrite filter_cons.
  destruct (isVisited (root s) c) eqn:Hvisited; simpl.
  { intros Hrest. rewrite (IHcs Hsub' _ _ Hrest).
    rewrite isVisited_chain in Hvisited. apply bool_decide_eq_true in Hvisited.
    apply list_elem_of_singleton in Hvisited as ->.
    by rewrite decide_False by done. }
  destruct (decide (c = e)) as [->|Hce].
  - (* the frame on [e] adds the direct route and nothing else *)
    destruct fuel as [|fuel]; [done|]. rewrite fanout_unfold.
    change (startLocation (mkWalker e (Some (root s)))) with e.
    rewrite bool_decide_eq_true_2 by done. unfold bind, Path_init, ret.
    rewrite (build_path_linked h [] (reverse (chain (mkWalker e (Some (root s))))))
      by (by apply (spawned_from_root h s e)).
    intros Hrest. rewrite (IHcs Hsub' _ _ Hrest), filter_app, length_app.
    change (reverse (chain (mkWalker e (Some (root s))))) with [s; e].
    rewrite filter_cons, decide_True by done. simpl. lia.
  - destruct (spawned_from_root h s c Hc Hvisited) as (Hnodup & Hlinked & Hin).
    destruct (fanout_spec h (graph_locations h s) e
                (λ a b, conns_graph_locations h s a b)
                fuel (mkWalker c (Some (root s))) acc Hnodup Hlinked Hin)
      as (r & -> & Hr).
    destruct r as [paths1|ex|]; [|done..]. destruct Hr as (new & -> & Hnew).
    intros Hrest. rewrite (IHcs Hsub' _ _ Hrest), filter_app, length_app.
    assert (filter (λ p, locations p = [s; e]) new = []) as ->; [|simpl; lia].
    apply filter_none, Forall_forall. intros p Hp Heq.
    rewrite Forall_forall in Hnew.
    destruct (Hnew _ Hp) as (suffix & Hloc & _). rewrite Heq in Hloc.
    simpl in Hloc. by injection Hloc.
Qed.

Lemma direct_route_count h s e fuel paths :
  s ≠ e →
  walk fuel (root s) e h = (h, Ok paths) →
  length (filter (λ p, locations p = [s; e]) paths)
  = length (filter (λ c, c = e) (conns h s)).
Proof.
  intros Hne. rewrite walk_fanout. destruct fuel as [|fuel]; [done|].
  rewrite fanout_unfold. change (startLocation (root s)) with s.
  rewrite bool_decide_eq_false_2 by done.
  unfold bind. rewrite getConnectedLocations_run. intros Hrun.
  by apply (direct_route_loop h s e fuel (conns h s) Hne) in Hrun.
Qed.

End Routes.

(** ** Distances between integer coordinates *)

Lemma coordinate_int (h : Heap pynum) (a : loc) :
  int_coordinates h →
  ∃ zx zy, from_option x num_0 (h !! a) = PyInt zx
           ∧ from_option y num_0 (h !! a) = PyInt zy.
Proof.
  intros Hint. destruct (h !! a) as [o|] eqn:Ho; simpl; [|by exists 0%Z, 0%Z].
  destruct (Hint a o Ho) as [Hx Hy].
  destruct (x o) as [zx|]; [|done]. destruct (y o) as [zy|]; [|done]. eauto.
Qed.

Lemma distanceTo_ints (h : Heap pynum) (a b : loc) (ax ay bx by' : Z) :
  from_option x num_0 (h !! a) = PyInt ax →
  from_option y num_0 (h !! a) = PyInt ay →
  from_option x num_0 (h !! b) = PyInt bx →
  from_option y num_0 (h !! b) = PyInt by' →
  distanceTo a b h
  = (h, py_sqrt (PyInt ((ax - bx) ^ 2 + (ay - by') ^ 2))).
Proof.
  intros Hax Hay Hbx Hby. unfold distanceTo, get_x, get_y, bind, get_heap, ret, lift.
  rewrite Hax, Hay, Hbx, Hby. simpl. by destruct (py_sqrt _).
Qed.

(** ** Distance of a path grown by one location *)

Section DistanceGrowth.
Context `{PyNumber num}.
Implicit Types (h : Heap num) (l : list loc).

Lemma consecutive_pairs_snoc l (b c : loc) :
  last l = Some b → consecutive_pairs (l ++ [c]) = consecutive_pairs l ++ [(b, c)].
Proof.
  induction l as [|a l IH]; [done|]. destruct l as [|a' l].
  - by intros [= ->].
  - change (last (a :: a' :: l)) with (last (a' :: l)). intros Hlast.
    change (consecutive_pairs ((a :: a' :: l) ++ [c]))
      with ((a, a') :: consecutive_pairs ((a' :: l) ++ [c])).
    by rewrite IH.
Qed.

Lemma foldM_app {S A} (body : S → A → M num S) (l1 l2 : list A) :
  ∀ s h, foldM body s (l1 ++ l2) h
         = bind (foldM body s l1) (λ s', foldM body s' l2) h.
Proof.
  induction l1 as [|a l1 IH]; intros s h; simpl; [done|].
  unfold bind. destruct (body s a h) as [h1 [s1|ex|]]; [|done..].
  apply IH.
Qed.

Lemma bind_ret_r {A} (m : M num A) h : bind m ret h = m h.
Proof. unfold bind. by destruct (m h) as [h' [a|ex|]]. Qed.

Lemma getDistance_snoc_run h l (b c : loc) :
  last l = Some b →
  getDistance (mkPath (l ++ [c])) h
  = (do d <- getDistance (mkPath l);
     do dist <- distanceTo b c;
     lift (num_add d dist)) h.
Proof.
  intros Hlast. rewrite getDistance_run. unfold sum_of_distances. simpl.
  rewrite (consecutive_pairs_snoc l b c Hlast), foldM_app.
  apply bind_ext; [by rewrite getDistance_run|].
  intros d h'. simpl. apply bind_ret_r.
Qed.

End DistanceGrowth.

(** * Further properties of the program *)

Section Extras.
Context {num : Type}.
Implicit Types (h : Heap num) (w : Walker) (l : list loc) (s e : loc).

(** X1: the walk enumerates the simple paths and nothing else: a sequence
    of locations is among the returned paths exactly when it begins at [s],
    ends at [e], repeats no location and follows connections only. *)
Theorem walk_enumerates_simple_paths h s e (fuel : nat) :
  enough_fuel h s fuel →
  ∃ paths, walk fuel (root s) e h = (h, Ok paths)
    ∧ ∀ l, mkPath l ∈ paths ↔ simple_path h s e l.
Proof.
  intros Hfuel. destruct (walk_total h s e fuel Hfuel) as (paths & Hrun & _).
  exists paths. split; [done|]. intros l. split.
  - by apply (walk_sound h s e fuel).
  - by apply (walk_complete h s e fuel).
Qed.

(** X2: when no connection list holds the same location twice, no path is
    returned twice. *)
Theorem walk_paths_distinct h s e (fuel : nat) :
  enough_fuel h s fuel →
  (∀ a o, h !! a = Some o → NoDup (connectedLocations o)) →
  ∃ paths, walk fuel (root s) e h = (h, Ok paths) ∧ NoDup (locations <$> paths).
Proof.
  intros Hfuel Hconns.
  destruct (walk_total h s e fuel Hfuel) as (paths & Hrun & _).
  exists paths. split; [done|]. rewrite walk_fanout in Hrun.
  apply fanout_nodup in Hrun as (new & -> & Hnew & _);
    [|intros a; unfold conns|apply NoDup_singleton|done].
  - apply NoDup_fmap_2; [|done]. intros [l1] [l2]. simpl. congruence.
  - destruct (h !! a) as [o|] eqn:Ho; simpl; [by apply (Hconns a o)|constructor].
Qed.

(** X3: duplicate connections are not merged: towards an end location other
    than the start, the route that goes there directly is returned once for
    every entry of the end location among the connections of the start. *)
Theorem walk_direct_route_per_connection h s e (fuel : nat) :
  s ≠ e → enough_fuel h s fuel →
  ∃ paths, walk fuel (root s) e h = (h, Ok paths)
    ∧ length (filter (λ p, locations p = [s; e]) paths)
      = length (filter (λ c, c = e) (conns h s)).
Proof.
  intros Hne Hfuel. destruct (walk_total h s e fuel Hfuel) as (paths & Hrun & _).
  exists paths. split; [done|]. by apply (direct_route_count h s e fuel).
Qed.

(** X4: [isVisited] answers [True] exactly for the location of the frame and
    the locations of its ancestors. *)
Theorem isVisited_iff_on_chain w (c : loc) :
  isVisited w c = true ↔ c ∈ chain w.
Proof. rewrite isVisited_chain. apply bool_decide_eq_true. Qed.

(** X5: a frame handed a predecessor chain that does not follow connections
    is not rejected when it is created; standing on the end location, its
    walk fails with the assertion of [addLocation]. *)
Theorem walk_from_disconnected_frame_asserts h w e (fuel : nat) :
  startLocation w = e → ¬ linked h (reverse (chain w)) →
  walk (S fuel) w e h = (h, Raise AssertionError).
Proof.
  intros Hend Hnot. rewrite walk_fanout, fanout_unfold.
  rewrite bool_decide_eq_true_2 by done. unfold bind, Path_init, ret.
  by rewrite (build_path_unlinked h [] (reverse (chain w))).
Qed.

(** X6: appending a sequence of locations to a new path, one after the
    other, succeeds and yields that sequence when every consecutive pair is a
    connection, and fails with the assertion otherwise; the heap is left
    alone in both cases. *)
Theorem addLocation_sequence h l :
  (linked h l → foldM addLocation (mkPath []) l h = (h, Ok (mkPath l)))
  ∧ (¬ linked h l → foldM addLocation (mkPath []) l h = (h, Raise AssertionError)).
Proof.
  split.
  - apply (build_path_linked h []).
  - by apply (build_path_unlinked h []).
Qed.

(** X7: on a live location [a], [connectTo a b] adds the one-way connection
    from [a] to [b], at the end of the connections of [a], and nothing else:
    no connection back, no other connection, the same objects with the same
    names and coordinates. *)
Theorem connectTo_adds_one_edge h (a b : loc) (o : Location num) :
  h !! a = Some o →
  ∃ h', connectTo a b h = (h', Ok tt)
    ∧ conns h' a = connectedLocations o ++ [b]
    ∧ (∀ c d, edge h' c d ↔ edge h c d ∨ (c = a ∧ d = b))
    ∧ dom h' = dom h
    ∧ (∀ c oc, h !! c = Some oc →
         ∃ oc', h' !! c = Some oc'
           ∧ name oc' = name oc ∧ x oc' = x oc ∧ y oc' = y oc).
Proof.
  intros Ha. exists (connectTo a b h).1. split; [by rewrite connectTo_run|].
  assert (∀ c, conns (connectTo a b h).1 c
               = if decide (c = a) then connectedLocations o ++ [b] else conns h c)
    as Hconns.
  { intros c. rewrite connectTo_conns, Ha. case_decide; [|done].
    unfold conns. by rewrite Ha. }
  split; [|split; [|split]].
  - by rewrite Hconns, decide_True.
  - intros c d. rewrite !edge_conns, Hconns. case_decide as Hc.
    + subst c. unfold conns. rewrite Ha. simpl.
      rewrite elem_of_app, list_elem_of_singleton. split.
      * intros [?|?]; [by left|by right].
      * intros [?|[_ ?]]; [by left|by right].
    + split; [by left|]. intros [?|[? _]]; [done|congruence].
  - rewrite connectTo_run. simpl. apply dom_alter_L.
  - intros c oc Hc. rewrite connectTo_run. simpl.
    destruct (decide (c = a)) as [->|Hne].
    + eexists. rewrite lookup_alter_eq, Hc. simpl. done.
    + exists oc. by rewrite lookup_alter_ne.
Qed.

(** X8: a new location gets an identity no live object has; it comes with
    an empty connection list of its own and leaves the other objects as they
    are; in a closed heap nothing is connected to it and it is connected to
    nothing. *)
Theorem Location_init_isolated h (n : string) (cx cy : num) :
  closed h →
  ∃ self h', Location_init n cx cy h = (h', Ok self)
    ∧ h !! self = None
    ∧ h' !! self = Some (mkLocation n cx cy [])
    ∧ (∀ c, c ≠ self → h' !! c = h !! c)
    ∧ (∀ c, ¬ edge h' c self ∧ ¬ edge h' self c).
Proof.
  intros Hclosed. exists (fresh (dom h)). eexists.
  split; [apply Location_init_run|]. pose proof (fresh_not_live h) as Hfresh.
  split; [done|]. split; [apply lookup_insert_eq|].
  split; [by intros c Hc; rewrite lookup_insert_ne|].
  intros c. split.
  - intros (oc & Hoc & Hin). destruct (decide (c = fresh (dom h))) as [->|Hne].
    + rewrite lookup_insert_eq in Hoc. injection Hoc as <-.
      by apply elem_of_nil in Hin.
    + rewrite lookup_insert_ne in Hoc by done.
      apply (Hclosed c oc Hoc) in Hin. apply elem_of_dom in Hin as [? Hin].
      congruence.
  - intros (oc & Hoc & Hin). rewrite lookup_insert_eq in Hoc.
    injection Hoc as <-. by apply elem_of_nil in Hin.
Qed.

(** X9: the graph-building operations keep the heap closed: after a new
    location, and after connecting to a live location, every connection
    still points to a live object. *)
Theorem building_keeps_closed h (n : string) (cx cy : num) (a b : loc) :
  closed h →
  closed (Location_init n cx cy h).1
  ∧ (b ∈ dom h → closed (connectTo a b h).1).
Proof.
  intros Hclosed. split.
  - rewrite Location_init_run. simpl. intros c oc Hoc d Hd.
    rewrite dom_insert_L. apply elem_of_union_r.
    destruct (decide (c = fresh (dom h))) as [->|Hne].
    + rewrite lookup_insert_eq in Hoc. injection Hoc as <-.
      by apply elem_of_nil in Hd.
    + rewrite lookup_insert_ne in Hoc by done. by apply (Hclosed c oc).
  - intros Hb. rewrite connectTo_run. simpl. intros c oc Hoc d Hd.
    rewrite dom_alter_L. destruct (decide (c = a)) as [->|Hne].
    + rewrite lookup_alter_eq in Hoc.
      destruct (h !! a) as [oa|] eqn:Ha; [|done]. injection Hoc as <-.
      simpl in Hd. apply elem_of_app in Hd as [Hd|Hd].
      * by apply (Hclosed a oa).
      * by apply list_elem_of_singleton in Hd as ->.
    + rewrite lookup_alter_ne in Hoc by done. by apply (Hclosed c oc).
Qed.

(** X10: on a closed heap that holds the start location, a budget of as
    many nested calls as there are [Location] objects suffices; no returned
    path is longer than that, and all its locations are live. *)
Theorem walk_on_closed_heap h s e (fuel : nat) :
  closed h → s ∈ dom h → size h ≤ fuel →
  ∃ paths, walk fuel (root s) e h = (h, Ok paths)
    ∧ ∀ p, p ∈ paths →
        length (locations p) ≤ size h ∧ ∀ a, a ∈ locations p → a ∈ dom h.
Proof.
  intros Hclosed Hs Hfuel.
  pose proof (closed_graph_locations h s Hclosed Hs) as HG.
  destruct (walk_total h s e fuel) as (paths & Hrun & Hpaths).
  { unfold enough_fuel. by rewrite HG, size_dom. }
  exists paths. split; [done|]. intros p Hp. rewrite Forall_forall in Hpaths.
  destruct (Hpaths p Hp) as (suffix & Heq & Hnodup & Hlinked & _).
  assert (∀ a, a ∈ locations p → a ∈ dom h) as Hlive.
  { intros a Ha. rewrite <-HG.
    apply (linked_graph_locations h s (locations p)); [done|by rewrite Heq|done]. }
  split; [|done]. rewrite <-size_dom. unfold size at 1, set_size. simpl.
  apply submseteq_length, NoDup_submseteq; [done|].
  intros a Ha. by apply elem_of_elements, Hlive.
Qed.

(** X12: connecting two locations loses no route: every path a walk returns
    before [connectTo a b] is returned by the same walk after it. *)
Theorem connectTo_keeps_routes h (a b : loc) s e (fuel fuel' : nat) :
  enough_fuel h s fuel → enough_fuel (connectTo a b h).1 s fuel' →
  ∃ before after,
    (do before <- walk fuel (root s) e;
     do_ connectTo a b;
     do after <- walk fuel' (root s) e;
     ret (before, after)) h = ((connectTo a b h).1, Ok (before, after))
    ∧ ∀ p, p ∈ before → p ∈ after.
Proof.
  intros Hfuel Hfuel'.
  destruct (walk_total h s e fuel Hfuel) as (before & Hrun & _).
  destruct (walk_total _ s e fuel' Hfuel') as (after & Hrun' & _).
  exists before, after. split.
  - unfold bind. rewrite Hrun. rewrite connectTo_run in *. simpl in *.
    by rewrite Hrun'.
  - intros [l] Hp. apply (walk_complete _ s e fuel' after l Hrun').
    apply (walk_sound h s e fuel before l Hrun) in Hp
      as (Hhead & Hlast & Hnodup & Hlinked).
    repeat split; [done..|].
    apply (linked_mono h); [|done]. intros c d. apply connectTo_edge_mono.
Qed.

(** X13: when every connection has its reverse, the paths from [e] to [s]
    are the paths from [s] to [e] read backwards. *)
Theorem walk_reversed_on_symmetric_graph h s e (fuel fuel' : nat) :
  (∀ a b, edge h a b → edge h b a) →
  enough_fuel h s fuel → enough_fuel h e fuel' →
  ∃ there back,
    walk fuel (root s) e h = (h, Ok there)
    ∧ walk fuel' (root e) s h = (h, Ok back)
    ∧ ∀ l, mkPath l ∈ there ↔ mkPath (reverse l) ∈ back.
Proof.
  intros Hsym Hfuel Hfuel'.
  destruct (walk_total h s e fuel Hfuel) as (there & Hrun & _).
  destruct (walk_total h e s fuel' Hfuel') as (back & Hrun' & _).
  exists there, back. split; [done|]. split; [done|]. intros l. split.
  - intros Hl. apply (walk_complete h e s fuel' back _ Hrun').
    apply simple_path_reverse; [done|]. by apply (walk_sound h s e fuel there).
  - intros Hl. apply (walk_complete h s e fuel there _ Hrun).
    rewrite <-(reverse_involutive l).
    apply simple_path_reverse; [done|]. by apply (walk_sound h e s fuel' back).
Qed.

(** X16: a frame created with a predecessor chain that is simple and
    connected walks on from that chain: with a budget above the number of
    locations of the graph its walk returns, and every returned path begins
    with the whole chain, root first, repeats no location, follows
    connections and ends at the end location. *)
Theorem walk_from_chained_frame h w e (fuel : nat) :
  NoDup (chain w) → linked h (reverse (chain w)) →
  size (graph_locations h (startLocation w)) < fuel →
  ∃ paths, walk fuel w e h = (h, Ok paths)
    ∧ ∀ p, p ∈ paths →
        ∃ suffix, locations p = reverse (chain w) ++ suffix
          ∧ NoDup (locations p) ∧ linked h (locations p)
          ∧ last (locations p) = Some e.
Proof.
  intros Hnodup Hlinked Hfuel. rewrite walk_fanout.
  destruct (fanout_spec h (list_to_set (chain w)
                           ∪ graph_locations h (startLocation w)) e)
    with (fuel := fuel) (w := w) (acc := @nil Path) as (r & -> & Hr).
  { intros a b Hb. apply elem_of_union_r. by apply (conns_graph_locations _ _ a). }
  { done. }
  { done. }
  { intros a Ha. apply elem_of_union_l. by apply elem_of_list_to_set. }
  destruct r as [paths|ex|]; simpl in Hr.
  - destruct Hr as (new & -> & Hnew). exists new. split; [done|].
    intros p Hp. rewrite Forall_forall in Hnew. apply (Hnew p Hp).
  - done.
  - exfalso.
    assert ((list_to_set (chain w) ∪ graph_locations h (startLocation w))
              ∖ list_to_set (chain w) ⊆ graph_locations h (startLocation w)) as Hsub.
    { intros a. rewrite elem_of_difference, elem_of_union. tauto. }
    apply subseteq_size in Hsub. lia.
Qed.

End Extras.

(** X11: the walk reads connections only: on two heaps whose locations have
    the same connections, whatever their names, their coordinates and the
    type of these, it has the same outcome. *)
Theorem walk_reads_connections_only {num1 num2 : Type}
    (h1 : Heap num1) (h2 : Heap num2) (fuel : nat) (w : Walker) (e : loc) :
  (∀ a, conns h1 a = conns h2 a) →
  (walk fuel w e h1).2 = (walk fuel w e h2).2.
Proof.
  intros Hconns. rewrite !walk_fanout.
  destruct (fanout_conns_only h1 h2 Hconns fuel w [] e) as (r & -> & ->). done.
Qed.

(** X14: between locations with integer coordinates the distance is the same
    in both directions, raised exceptions included. *)
Theorem distanceTo_symmetric_int (h : Heap pynum) (a b : loc) :
  int_coordinates h → distanceTo a b h = distanceTo b a h.
Proof.
  intros Hint.
  destruct (coordinate_int h a Hint) as (ax & ay & Hax & Hay).
  destruct (coordinate_int h b Hint) as (bx & by' & Hbx & Hby).
  rewrite (distanceTo_ints h a b ax ay bx by'), (distanceTo_ints h b a bx by' ax ay)
    by done.
  do 3 f_equal. ring.
Qed.

(** X15: the distance from a location with integer coordinates to itself is
    the float 0.0. *)
Theorem distanceTo_self_int (h : Heap pynum) (a : loc) :
  int_coordinates h → distanceTo a a h = (h, Ok (PyFloat 0%float)).
Proof.
  intros Hint. destruct (coordinate_int h a Hint) as (ax & ay & Hax & Hay).
  rewrite (distanceTo_ints h a a ax ay ax ay) by done.
  replace ((ax - ax) ^ 2 + (ay - ay) ^ 2)%Z with 0%Z by ring. reflexivity.
Qed.

(** X17: growing a path by one location grows its distance by one segment:
    the distance of a sequence followed by [c] is the distance of the
    sequence plus the distance from its last location to [c], added in this
    order, and it raises whatever one of the three raises. *)
Theorem getDistance_grows_by_segment `{PyNumber num}
    (h : Heap num) (l : list loc) (b c : loc) :
  last l = Some b →
  getDistance (mkPath (l ++ [c])) h
  = (do d <- getDistance (mkPath l);
     do dist <- distanceTo b c;
     lift (num_add d dist)) h.
Proof. apply getDistance_snoc_run. Qed.

(** ** Instances of the conditional statements *)

Lemma walk_enumerates_simple_paths_witness :
  ∃ paths, walk 5 (root Home) School main_heap = (main_heap, Ok paths)
    ∧ ∀ l, mkPath l ∈ paths ↔ simple_path main_heap Home School l.
Proof.
  apply (walk_enumerates_simple_paths main_heap Home School 5).
  unfold enough_fuel. vm_compute. lia.
Defined.

Lemma walk_paths_distinct_witness :
  ∃ paths, walk 5 (root Home) School main_heap = (main_heap, Ok paths)
    ∧ NoDup (locations <$> paths).
Proof.
  apply (walk_paths_distinct main_heap Home School 5).
  - unfold enough_fuel. vm_compute. lia.
  - apply nodup_check. by apply (bool_decide_unpack _).
Defined.

Lemma walk_direct_route_per_connection_witness :
  ∃ paths,
    walk 2 (root 1%positive) 2%positive double_heap = (double_heap, Ok paths)
    ∧ length (filter (λ p, locations p = [1%positive; 2%positive]) paths)
      = length (filter (λ c, c = 2%positive) (conns double_heap 1%positive)).
Proof.
  apply (walk_direct_route_per_connection double_heap 1%positive 2%positive 2).
  - discriminate.
  - unfold enough_fuel. vm_compute. lia.
Defined.

Lemma walk_from_disconnected_frame_asserts_witness :
  walk 1 (mkWalker School (Some (root Shop))) School main_heap
  = (main_heap, Raise AssertionError).
Proof.
  apply (walk_from_disconnected_frame_asserts
           main_heap (mkWalker School (Some (root Shop))) School 0).
  - reflexivity.
  - intros [(o & Ho & Hin) _]. vm_compute in Ho. injection Ho as <-.
    apply list_elem_of_singleton in Hin. discriminate.
Defined.

Lemma connectTo_adds_one_edge_witness :
  ∃ h', connectTo Home School main_heap = (h', Ok tt)
    ∧ conns h' Home = [Shop; Park; Library] ++ [School]
    ∧ (∀ c d, edge h' c d ↔ edge main_heap c d ∨ (c = Home ∧ d = School))
    ∧ dom h' = dom main_heap
    ∧ (∀ c oc, main_heap !! c = Some oc →
         ∃ oc', h' !! c = Some oc'
           ∧ name oc' = name oc ∧ x oc' = x oc ∧ y oc' = y oc).
Proof.
  apply (connectTo_adds_one_edge main_heap Home School
           (mkLocation "Home" (PyInt 10) (PyInt 10) [Shop; Park; Library])).
  reflexivity.
Defined.

Lemma Location_init_isolated_witness :
  ∃ self h', Location_init "Zoo" (PyInt 0) (PyInt 0) main_heap = (h', Ok self)
    ∧ main_heap !! self = None
    ∧ h' !! self = Some (mkLocation "Zoo" (PyInt 0) (PyInt 0) [])
    ∧ (∀ c, c ≠ self → h' !! c = main_heap !! c)
    ∧ (∀ c, ¬ edge h' c self ∧ ¬ edge h' self c).
Proof.
  apply (Location_init_isolated main_heap "Zoo" (PyInt 0) (PyInt 0)).
  apply closed_check. by apply (bool_decide_unpack _).
Defined.

Lemma building_keeps_closed_witness :
  closed (Location_init "Zoo" (PyInt 0) (PyInt 0) main_heap).1
  ∧ (School ∈ dom main_heap → closed (connectTo Home School main_heap).1).
Proof.
  apply (building_keeps_closed main_heap "Zoo" (PyInt 0) (PyInt 0) Home School).
  apply closed_check. by apply (bool_decide_unpack _).
Defined.

Lemma walk_on_closed_heap_witness :
  ∃ paths, walk 5 (root Home) School main_heap = (main_heap, Ok paths)
    ∧ ∀ p, p ∈ paths →
        length (locations p) ≤ size main_heap
        ∧ ∀ a, a ∈ locations p → a ∈ dom main_heap.
Proof.
  apply (walk_on_closed_heap main_heap Home School 5).
  - apply closed_check. by apply (bool_decide_unpack _).
  - by apply (bool_decide_unpack _).
  - vm_compute. lia.
Defined.

Lemma walk_reads_connections_only_witness :
  (walk 5 (root Home) School main_heap).2 = (walk 5 (root Home) School blank_heap).2.
Proof.
  apply (walk_reads_connections_only main_heap blank_heap 5 (root Home) School).
  intros a. unfold conns, blank_heap. rewrite lookup_fmap.
  by destruct (main_heap !! a).
Defined.

Lemma connectTo_keeps_routes_witness :
  ∃ before after,
    (do before <- walk 5 (root Home) School;
     do_ connectTo Shop School;
     do after <- walk 5 (root Home) School;
     ret (before, after)) main_heap
    = ((connectTo Shop School main_heap).1, Ok (before, after))
    ∧ ∀ p, p ∈ before → p ∈ after.
Proof.
  apply (connectTo_keeps_routes main_heap Shop School Home School 5 5).
  - unfold enough_fuel. vm_compute. lia.
  - unfold enough_fuel. vm_compute. lia.
Defined.

Lemma walk_reversed_on_symmetric_graph_witness :
  ∃ there back,
    walk 2 (root 1%positive) 2%positive pair_heap = (pair_heap, Ok there)
    ∧ walk 2 (root 2%positive) 1%positive pair_heap = (pair_heap, Ok back)
    ∧ ∀ l, mkPath l ∈ there ↔ mkPath (reverse l) ∈ back.
Proof.
  apply (walk_reversed_on_symmetric_graph pair_heap 1%positive 2%positive 2 2).
  - apply symmetric_check. by apply (bool_decide_unpack _).
  - unfold enough_fuel. vm_compute. lia.
  - unfold enough_fuel. vm_compute. lia.
Defined.

Lemma distanceTo_symmetric_int_witness :
  distanceTo Home Library main_heap = distanceTo Library Home main_heap.
Proof.
  apply (distanceTo_symmetric_int main_heap Home Library).
  cut (map_Forall (λ _ o, is_int (x o) ∧ is_int (y o)) main_heap); [done|].
  by apply (bool_decide_unpack _).
Defined.

Lemma distanceTo_self_int_witness :
  distanceTo Park Park main_heap = (main_heap, Ok (PyFloat 0%float)).
Proof.
  apply (distanceTo_self_int main_heap Park).
  cut (map_Forall (λ _ o, is_int (x o) ∧ is_int (y o)) main_heap); [done|].
  by apply (bool_decide_unpack _).
Defined.

Lemma walk_from_chained_frame_witness :
  ∃ paths,
    walk 6 (mkWalker Park (Some (root Home))) School main_heap = (main_heap, Ok paths)
    ∧ ∀ p, p ∈ paths →
        ∃ suffix,
          locations p = reverse (chain (mkWalker Park (Some (root Home)))) ++ suffix
          ∧ NoDup (locations p) ∧ linked main_heap (locations p)
          ∧ last (locations p) = Some School.
Proof.
  apply (walk_from_chained_frame main_heap (mkWalker Park (Some (root Home))) School 6).
  - by apply (bool_decide_unpack _).
  - split; [|done]. exists (mkLocation "Home" (PyInt 10) (PyInt 10) [Shop; Park; Library]).
    split; [reflexivity|]. by apply (bool_decide_unpack _).
  - vm_compute. lia.
Defined.

Lemma getDistance_grows_by_segment_witness :
  getDistance (mkPath ([Home; Park] ++ [School])) main_heap
  = (do d <- getDistance (mkPath [Home; Park]);
     do dist <- distanceTo Park School;
     lift (num_add d dist)) main_heap.
Proof.
  apply (getDistance_grows_by_segment main_heap [Home; Park] Park School).
  reflexivity.
Defined.
